(** * RosettaNet viewer: parser, visibility projector and search engine

    A shallow embedding of [parseRosettaNetHtml] and of the [App] component's
    expansion, projection and search logic, followed by the properties of
    the specification that were checked against it.

    Modelling conventions.
    - A JavaScript string is a Rocq [string]; each character stands for one
      UTF-16 code unit below 256.  [toLowerCase] and [trim] are written out
      for that range.  U+FFFD, which the parser deletes from the raw text
      before handing it to the DOM parser, does not occur in that range.
    - The DOM that [DOMParser.parseFromString] returns is seen through the
      three queries the code makes: the list of [table] elements, for each
      table the list of its [tr] elements, and for each row its
      [textContent] together with the [textContent] of its [td] elements.
    - A node id is the Number that [parseInt] returns for a string of
      decimal digits: an integral double, or [Infinity].  It is represented
      in [N] by its value, [Infinity] by 2^1024, which no finite double
      reaches; ids are only compared with each other and with 0, so the
      representation keeps every test the code makes.  [Js.toNumber] rounds
      the number spelled by the digits to 53 significant bits, ties to even.
    - [Set] of ids is [gset N].  The [parentIds] object is a [gmap]; its keys
      are numbers.  The [definitions] object is a plain object: its own
      properties are a [gmap], a read also finds the members that every
      object inherits from [Object.prototype], and a write to [__proto__]
      stores nothing.  A description is therefore a [JsValue]: a string, or
      an inherited member.
    - A [while] loop whose termination depends on the data runs on fuel and
      returns [None] when the fuel is used up. *)

From Stdlib Require Import Ascii NArith ZArith Lia.
From stdpp Require Import gmap strings list fin_maps.

(** ** JavaScript string primitives *)

Module Js.

Definition code (c : ascii) : N := N_of_ascii c.

(** [\d] *)
Definition isDigit (c : ascii) : bool :=
  ((48 <=? code c) && (code c <=? 57))%N.

(** White space and line terminators, as used by [trim] and [\s]. *)
Definition isSpace (c : ascii) : bool :=
  let n := code c in
  ((9 <=? n) && (n <=? 13) || (n =? 32) || (n =? 160))%N.

Definition lowerChar (c : ascii) : ascii :=
  let n := code c in
  if ((65 <=? n) && (n <=? 90)
      || (192 <=? n) && (n <=? 222) && negb (n =? 215))%N
  then ascii_of_N (n + 32) else c.

Fixpoint toLowerCase (s : string) : string :=
  match s with
  | EmptyString => EmptyString
  | String c s' => String (lowerChar c) (toLowerCase s')
  end.

Definition isEmpty (s : string) : bool :=
  match s with EmptyString => true | _ => false end.

(** [s.startsWith(p)] *)
Fixpoint startsWith (s p : string) {struct p} : bool :=
  match p, s with
  | EmptyString, _ => true
  | String _ _, EmptyString => false
  | String a p', String b s' => Ascii.eqb a b && startsWith s' p'
  end.

(** [s.includes(sub)] *)
Fixpoint includes (s sub : string) : bool :=
  startsWith s sub ||
  match s with
  | EmptyString => false
  | String _ s' => includes s' sub
  end.

Fixpoint endsWithChar (s : string) (c : ascii) : bool :=
  match s with
  | EmptyString => false
  | String a EmptyString => Ascii.eqb a c
  | String _ s' => endsWithChar s' c
  end.

(** [s.substring(0, s.length - 1)] *)
Fixpoint dropLast (s : string) : string :=
  match s with
  | EmptyString => EmptyString
  | String _ EmptyString => EmptyString
  | String a s' => String a (dropLast s')
  end.

Fixpoint trimStart (s : string) : string :=
  match s with
  | EmptyString => EmptyString
  | String c s' => if isSpace c then trimStart s' else s
  end.

Fixpoint trimEnd (s : string) : string :=
  match s with
  | EmptyString => EmptyString
  | String c s' =>
      let r := trimEnd s' in
      if isSpace c && isEmpty r then EmptyString else String c r
  end.

Definition trim (s : string) : string := trimEnd (trimStart s).

Fixpoint filterChars (keep : ascii -> bool) (s : string) : string :=
  match s with
  | EmptyString => EmptyString
  | String c s' =>
      if keep c then String c (filterChars keep s') else filterChars keep s'
  end.

Fixpoint mapChars (f : ascii -> ascii) (s : string) : string :=
  match s with
  | EmptyString => EmptyString
  | String c s' => String (f c) (mapChars f s')
  end.

Fixpoint countChar (c : ascii) (s : string) : nat :=
  match s with
  | EmptyString => 0
  | String a s' => (if Ascii.eqb a c then 1 else 0) + countChar c s'
  end.

(** [s.split(sep)] for a one-character separator: never the empty list. *)
Fixpoint split (sep : ascii) (s : string) : list string :=
  match s with
  | EmptyString => [EmptyString]
  | String c s' =>
      if Ascii.eqb c sep then EmptyString :: split sep s'
      else match split sep s' with
           | p :: ps => String c p :: ps
           | [] => [String c EmptyString]
           end
  end.

(** The mathematical integer spelled by the leading run of decimal digits
    of [s]. *)
Definition digitVal (c : ascii) : N := (code c - 48)%N.

Fixpoint parseDigits (acc : N) (s : string) : N :=
  match s with
  | EmptyString => acc
  | String c s' =>
      if isDigit c then parseDigits (10 * acc + digitVal c)%N s' else acc
  end.

(** [Infinity], as an id. *)
Definition infinity : N := N.shiftl 1 1024.

(** The Number value of a non-negative integer: the nearest double, ties to
    the even significand; [Infinity] from 2^1024 on.  Integers up to 2^53
    are kept as they are. *)
Definition toNumber (n : N) : N :=
  let bits := N.size n in
  if (bits <=? 53)%N then n
  else
    let shift := (bits - 53)%N in
    let q := N.shiftr n shift in
    let r := (n - N.shiftl q shift)%N in
    let half := N.shiftl 1 (shift - 1) in
    let q := if (half <? r)%N || (r =? half)%N && N.odd q
             then (q + 1)%N else q in
    let v := N.shiftl q shift in
    if (infinity <=? v)%N then infinity else v.

(** [parseInt(s, 10)] on a string without leading white space or sign: the
    Number value of the leading run of decimal digits; [None] is [NaN].
    The value is rounded from all the digits, as the engines do; the
    language would also let an engine take the digits after the twentieth
    as zeros. *)
Definition parseInt (s : string) : option N :=
  match s with
  | EmptyString => None
  | String c _ =>
      if isDigit c then Some (toNumber (parseDigits 0%N s)) else None
  end.

End Js.

(** ** The document as the parser sees it *)

Module Dom.

(** A [tr] element: its [textContent] and the [textContent] of each of its
    [td] elements, in document order. *)
Record Row := mkRow { textContent : string; tds : list string }.

(** [table.querySelectorAll('tr')] *)
Definition Table := list Row.

(** [doc.querySelectorAll('table')] *)
Definition Document := list Table.

End Dom.

(** ** parseRosettaNetHtml *)

Module Parser.
Import Js Dom.

(** One entry of [rawData]; [handleDataLoaded] turns the array
    [[id, parentId, fieldNo, level, name, description]] into an object with
    these fields. *)
(** What a read of the [definitions] object can return: a stored string,
    or the member of [Object.prototype] of that name (a function; for
    [__proto__] the prototype object itself). *)
Inductive JsValue :=
| Str (s : string)
| Inherited (key : string).
Coercion Str : string >-> JsValue.

Record Node := mkNode {
  id : N;
  parentId : N;
  fieldNo : string;
  level : nat;
  name : string;
  description : JsValue
}.

Inductive ParseError := NoTableStructure.

Inductive Result (A : Type) :=
| Returns (a : A)
| Throws (e : ParseError).
Arguments Returns {A} a.
Arguments Throws {A} e.

(** *** Step 1: the definition dictionary *)

Definition isDefTable (rows : Table) : bool :=
  existsb (fun tr =>
    let text := toLowerCase (textContent tr) in
    includes text "name" && includes text "definition") rows.

Fixpoint dropPrefix (p s : string) : option string :=
  match p, s with
  | EmptyString, _ => Some s
  | String _ _, EmptyString => None
  | String a p', String b s' =>
      if Ascii.eqb a b then dropPrefix p' s' else None
  end.

(** [/^unformatted\s*text\.?$/i.test(def)] *)
Definition isUnformatted (def : string) : bool :=
  match dropPrefix "unformatted" (toLowerCase def) with
  | Some r =>
      match dropPrefix "text" (trimStart r) with
      | Some t => String.eqb t "" || String.eqb t "."
      | None => false
      end
  | None => false
  end.

(** The property names of [Object.prototype]. *)
Definition prototypeMembers : list string :=
  [ "constructor"; "hasOwnProperty"; "isPrototypeOf"; "propertyIsEnumerable";
    "toLocaleString"; "toString"; "valueOf"; "__proto__";
    "__defineGetter__"; "__defineSetter__";
    "__lookupGetter__"; "__lookupSetter__" ].

Definition isInherited (key : string) : bool :=
  existsb (String.eqb key) prototypeMembers.

(** [definitions[name] = def] for a string [def]: an own property is
    created or overwritten, except under [__proto__], whose setter ignores
    a value that is not an object. *)
Definition assignDef (definitions : gmap string string) (name def : string)
  : gmap string string :=
  if String.eqb name "__proto__" then definitions
  else <[name := def]> definitions.

Definition defRow (definitions : gmap string string) (tr : Row)
  : gmap string string :=
  match tds tr with
  | c0 :: c1 :: _ =>
      let name := trim c0 in
      let def := trim c1 in
      let def := if isUnformatted def then "" else def in
      if negb (isEmpty name) && negb (String.eqb (toLowerCase name) "name")
      then assignDef definitions name def
      else definitions
  | _ => definitions
  end.

Definition defTable (definitions : gmap string string) (rows : Table)
  : gmap string string :=
  if isDefTable rows then fold_left defRow rows definitions else definitions.

Definition extractDefinitions (tables : Document) : gmap string string :=
  fold_left defTable tables ∅.

(** *** Step 2: the main table *)

Definition treeScore (rows : Table) : nat :=
  length (List.filter (fun tr => includes (textContent tr) "|--") rows).

Definition scoreStep (st : option Table * nat) (rows : Table)
  : option Table * nat :=
  let '(mainTable, maxTreeScore) := st in
  if 5 <? length rows then
    let score := treeScore rows in
    if maxTreeScore <? score then (Some rows, score) else st
  else st.

(** [tables.sort((a, b) => b.rows - a.rows)[0]]: the first table among
    those with the most rows (the sort is stable). *)
Fixpoint largestTable (tables : Document) : option Table :=
  match tables with
  | [] => None
  | t :: ts =>
      match largestTable ts with
      | Some u => if length t <? length u then Some u else Some t
      | None => Some t
      end
  end.

Definition selectMainTable (tables : Document) : option Table :=
  match fst (fold_left scoreStep tables (None, 0)) with
  | Some t => Some t
  | None => largestTable tables
  end.

(** *** Step 3: the row loop *)

Definition nbspToSpace (c : ascii) : ascii :=
  if (code c =? 160)%N then " "%char else c.

(** [raw.replace(/[|\-]/g, '').trim()] *)
Definition clean (raw : string) : string :=
  trim (filterChars
          (fun c => negb (Ascii.eqb c "|" || Ascii.eqb c "-")) raw).

(** [definitions[key]]: the own property if there is one, else the
    inherited member of that name; [None] is [undefined]. *)
Definition readDef (definitions : gmap string string) (key : string)
  : option JsValue :=
  match definitions !! key with
  | Some d => Some (Str d)
  | None => if isInherited key then Some (Inherited key) else None
  end.

Definition truthy (v : JsValue) : bool :=
  match v with
  | Str d => negb (isEmpty d)
  | Inherited _ => true
  end.

(** [definitions[key]] used as a condition: the value read, when it is
    truthy. *)
Definition truthyDef (definitions : gmap string string) (key : string)
  : option JsValue :=
  match readDef definitions key with
  | Some v => if truthy v then Some v else None
  | None => None
  end.

Definition describe (definitions : gmap string string) (cleanName : string)
  : JsValue :=
  let parts := split "." cleanName in
  match truthyDef definitions cleanName with
  | Some d => d
  | None =>
      match parts !! 0 ≫= truthyDef definitions with
      | Some d => d
      | None =>
          match parts !! 1 ≫= truthyDef definitions with
          | Some d => d
          | None => ""
          end
      end
  end.

Definition RowState : Type := gmap Z N * list Node.

Definition processRow (definitions : gmap string string)
    (st : RowState) (tr : Row) : RowState :=
  let '(parentIds, rawData) := st in
  match tds tr with
  | c0 :: _ :: c2 :: more =>
      let fieldNoStr := trim c0 in
      let cleanIdStr := filterChars isDigit fieldNoStr in
      match parseInt cleanIdStr with
      | None => st
      | Some id =>
          let rawNameText := mapChars nbspToSpace c2 in
          let level := countChar "|" rawNameText in
          let cleanName := clean rawNameText in
          let cleanName :=
            if isEmpty cleanName then
              match more with
              | c3 :: _ => clean c3
              | [] => cleanName
              end
            else cleanName in
          let parentId := default 0%N (parentIds !! (Z.of_nat level - 1)%Z) in
          let parentIds := <[Z.of_nat level := id]> parentIds in
          let description := describe definitions cleanName in
          (parentIds,
           rawData ++ [mkNode id parentId fieldNoStr level cleanName description])
      end
  | _ => st
  end.

Definition initialRowState : RowState := ({[ (-1)%Z := 0%N ]}, []).

Definition buildTree (definitions : gmap string string) (rows : Table)
  : list Node :=
  snd (fold_left (processRow definitions) rows initialRowState).

Definition parseRosettaNetHtml (doc : Document) : Result (list Node) :=
  let definitions := extractDefinitions doc in
  match selectMainTable doc with
  | None => Throws NoTableStructure
  | Some mainTable => Returns (buildTree definitions mainTable)
  end.

End Parser.

(** ** The App component: expansion state, projector and search *)

Module App.
Import Js Parser.

Inductive SearchMode := keyword | path.

(** The pieces of React state the core reads and writes. *)
Record State := mkState {
  data : list Node;
  expandedIds : gset N;
  searchTerm : string;
  highlightedIds : gset N;
  searchMode : SearchMode
}.

Definition setExpandedIds (s : gset N) (st : State) : State :=
  mkState (data st) s (searchTerm st) (highlightedIds st) (searchMode st).

Definition setHighlightedIds (s : gset N) (st : State) : State :=
  mkState (data st) (expandedIds st) (searchTerm st) s (searchMode st).

Definition setSearchMode (m : SearchMode) (st : State) : State :=
  mkState (data st) (expandedIds st) (searchTerm st) (highlightedIds st) m.

Definition setSearchTerm (t : string) (st : State) : State :=
  mkState (data st) (expandedIds st) t (highlightedIds st) (searchMode st).

Definition setData (d : list Node) (st : State) : State :=
  mkState d (expandedIds st) (searchTerm st) (highlightedIds st) (searchMode st).


(** *** Expansion state machine *)


Definition toggleNode (id : N) (st : State) : State :=
  if bool_decide (id ∈ expandedIds st)
  then setExpandedIds (expandedIds st ∖ {[ id ]}) st
  else setExpandedIds ({[ id ]} ∪ expandedIds st) st.

Definition hasChild (data : list Node) (item : Node) : bool :=
  existsb (fun child => (parentId child =? id item)%N) data.

Definition allParentIds (data : list Node) : gset N :=
  list_to_set (map id (List.filter (hasChild data) data)).


Definition collapseAll (st : State) : State := setExpandedIds ∅ st.

Definition clearView (st : State) : State :=
  collapseAll (setSearchMode keyword (setHighlightedIds ∅ (setSearchTerm "" st))).

Definition resetFile (st : State) : State := clearView (setData [] st).

(** *** Visibility projector *)

(** [new Map(data.map(d => [d.id, d]))]: a later entry replaces an earlier
    one with the same id. *)
Definition mkIdMap (data : list Node) : gmap N Node :=
  fold_left (fun m d => <[id d := d]> m) data ∅.

(** The [while (currentParentId !== 0)] loop of the filter callback. *)
Fixpoint ancestorsExpanded (fuel : nat) (idMap : gmap N Node)
    (expanded : gset N) (currentParentId : N) : option bool :=
  match fuel with
  | O => None
  | S fuel' =>
      if (currentParentId =? 0)%N then Some true
      else if negb (bool_decide (currentParentId ∈ expanded)) then Some false
      else match idMap !! currentParentId with
           | None => Some false
           | Some parent =>
               ancestorsExpanded fuel' idMap expanded (parentId parent)
           end
  end.

Definition isVisible (fuel : nat) (idMap : gmap N Node) (expanded : gset N)
    (item : Node) : option bool :=
  if (parentId item =? 0)%N then Some true
  else ancestorsExpanded fuel idMap expanded (parentId item).

(** [data.filter(callback)] where the callback may fail to return. *)
Fixpoint filterOpt {A} (f : A -> option bool) (l : list A) : option (list A) :=
  match l with
  | [] => Some []
  | x :: l' =>
      match f x with
      | None => None
      | Some b =>
          match filterOpt f l' with
          | None => None
          | Some r => Some (if b then x :: r else r)
          end
      end
  end.

Definition visibleItems (fuel : nat) (data : list Node) (expanded : gset N)
  : option (list Node) :=
  match data with
  | [] => Some []
  | _ => filterOpt (isVisible fuel (mkIdMap data) expanded) data
  end.

(** *** Search: path mode *)

(** [path.replace(/^\/?Pip[^\/]+\//, '')] *)
Fixpoint afterSlash (s : string) : option string :=
  match s with
  | EmptyString => None
  | String c s' => if Ascii.eqb c "/" then Some s' else afterSlash s'
  end.

Definition stripPipPrefix (path : string) : string :=
  let s := match path with
           | String c s' => if Ascii.eqb c "/" then s' else path
           | EmptyString => path
           end in
  match dropPrefix "Pip" s with
  | Some (String c r) =>
      if Ascii.eqb c "/" then path
      else match afterSlash r with
           | Some rest => rest
           | None => path
           end
  | _ => path
  end.

(** [path.replace(/\[\d*\]/g, "")]: [indexLen s] is the length of a match
    of [\d*\]] at the start of [s]; [skip] counts the characters of the
    current match that are still to be dropped. *)
Fixpoint indexLen (s : string) : option nat :=
  match s with
  | EmptyString => None
  | String c s' =>
      if Ascii.eqb c "]" then Some 1
      else if isDigit c then S <$> indexLen s'
      else None
  end.

Fixpoint stripIndexes (skip : nat) (s : string) : string :=
  match s with
  | EmptyString => EmptyString
  | String c s' =>
      match skip with
      | S k => stripIndexes k s'
      | O =>
          if Ascii.eqb c "[" then
            match indexLen s' with
            | Some n => stripIndexes n s'
            | None => String c (stripIndexes 0 s')
            end
          else String c (stripIndexes 0 s')
      end
  end.

Definition pathSegments (trimmedTerm : string) : list string :=
  let path := stripPipPrefix trimmedTerm in
  let path := stripIndexes 0 path in
  let path := match path with
              | String c s' => if Ascii.eqb c "/" then s' else path
              | EmptyString => path
              end in
  let path := if endsWithChar path "/" then dropLast path else path in
  List.filter (fun s => negb (isEmpty s)) (split "/" path).

Definition childrenOf (data : list Node) (parent : N) : list Node :=
  List.filter (fun d => (parentId d =? parent)%N) data.

(** [c.name.toLowerCase() === t.toLowerCase() || c.name.includes(t)] *)
Definition nameMatches (t : string) (c : Node) : bool :=
  String.eqb (toLowerCase (name c)) (toLowerCase t) || includes (name c) t.

Definition isChoice (c : Node) : bool :=
  String.eqb (name c) "Choice" || String.eqb (name c) "(Choice)".

(** The variables of the traversal loop. *)
Record Walk := mkWalk {
  newExpanded : gset N;
  currentParentId : N;
  matchedNodeId : option N;
  i : nat
}.

Definition descend (ids : list N) (m : Node) (consumed : nat) (w : Walk)
  : Walk :=
  mkWalk (list_to_set ids ∪ newExpanded w) (id m) (Some (id m))
         (i w + consumed).

Definition compoundMatch (data : list Node) (segments : list string)
    (w : Walk) : option Node :=
  match segments !! i w, segments !! (i w + 1) with
  | Some segment, Some nextSegment =>
      if isEmpty nextSegment then None
      else find (nameMatches (segment +:+ "." +:+ nextSegment))
                (childrenOf data (currentParentId w))
  | _, _ => None
  end.

Definition singleMatch (data : list Node) (segments : list string)
    (w : Walk) : option Node :=
  segment ← segments !! i w;
  find (nameMatches segment) (childrenOf data (currentParentId w)).

Definition choiceNode (data : list Node) (w : Walk) : option Node :=
  find isChoice (childrenOf data (currentParentId w)).

Definition matchInChoice (data : list Node) (segments : list string)
    (w : Walk) (choice : Node) : option Node :=
  segment ← segments !! i w;
  find (nameMatches segment) (childrenOf data (id choice)).

(** One pass through the body of [while (i < segments.length)]; [None] is
    [break]. *)
Definition iteration (data : list Node) (segments : list string) (w : Walk)
  : option Walk :=
  match compoundMatch data segments w with
  | Some m => Some (descend [id m] m 2 w)
  | None =>
      match singleMatch data segments w with
      | Some m => Some (descend [id m] m 1 w)
      | None =>
          match choiceNode data w with
          | Some choice =>
              match matchInChoice data segments w choice with
              | Some g => Some (descend [id choice; id g] g 1 w)
              | None => None
              end
          | None => None
          end
      end
  end.

Fixpoint traverse (fuel : nat) (data : list Node) (segments : list string)
    (w : Walk) : Walk :=
  match fuel with
  | O => w
  | S fuel' =>
      if i w <? length segments then
        match iteration data segments w with
        | Some w' => traverse fuel' data segments w'
        | None => w
        end
      else w
  end.

Definition startWalk : Walk := mkWalk ∅ 0%N None 0.

(** [if (matchedNodeId)]: neither [null] nor [0]. *)
Definition truthyId (m : option N) : option N :=
  match m with
  | Some n => if (n =? 0)%N then None else Some n
  | None => None
  end.

(** Normalisation of the query followed by the traversal loop; each pass
    consumes at least one segment, so [length segments] passes suffice. *)
Definition resolvePath (trimmedTerm : string) (data : list Node) : Walk :=
  let segments := pathSegments trimmedTerm in
  traverse (length segments) data segments startWalk.

Definition pathSearch (trimmedTerm : string) (st : State) : State :=
  let st := setSearchMode path st in
  let w := resolvePath trimmedTerm (data st) in
  match truthyId (matchedNodeId w) with
  | Some m => setHighlightedIds {[ m ]} (setExpandedIds (newExpanded w) st)
  | None => setHighlightedIds ∅ st
  end.

(** *** Search: keyword mode *)

Definition keywordMatch (lowerTerm : string) (item : Node) : bool :=
  includes (toLowerCase (name item)) lowerTerm
  || includes (fieldNo item) lowerTerm.

(** The [while (currentParentId !== 0)] loop run for each match. *)
Fixpoint addAncestors (fuel : nat) (data : list Node) (cur : N)
    (expanded : gset N) : option (gset N) :=
  match fuel with
  | O => None
  | S fuel' =>
      if (cur =? 0)%N then Some expanded
      else
        let expanded := {[ cur ]} ∪ expanded in
        match find (fun d => (id d =? cur)%N) data with
        | Some parent => addAncestors fuel' data (parentId parent) expanded
        | None => Some expanded
        end
  end.

Fixpoint expandMatches (fuel : nat) (data matches : list Node)
    (expanded : gset N) : option (gset N) :=
  match matches with
  | [] => Some expanded
  | m :: rest =>
      expanded' ← addAncestors fuel data (parentId m) expanded;
      expandMatches fuel data rest expanded'
  end.

Definition keywordSearch (fuel : nat) (trimmedTerm : string) (st : State)
  : option State :=
  let st := setSearchMode keyword st in
  let lowerTerm := toLowerCase trimmedTerm in
  let matches := List.filter (keywordMatch lowerTerm) (data st) in
  let newHighlighted : gset N := list_to_set (map id matches) in
  newExpanded ← expandMatches fuel (data st) matches (expandedIds st);
  Some (setExpandedIds newExpanded (setHighlightedIds newHighlighted st)).

Definition isPathQuery (trimmedTerm : string) : bool :=
  includes trimmedTerm "/" || startsWith trimmedTerm "Pip".

(** The search effect, run when [searchTerm] or [data] changes. *)
Definition searchEffect (fuel : nat) (st : State) : option State :=
  match data st with
  | [] => Some st
  | _ =>
      let trimmedTerm := trim (searchTerm st) in
      if isEmpty trimmedTerm then
        Some (setSearchMode keyword (setHighlightedIds ∅ st))
      else if isPathQuery trimmedTerm then Some (pathSearch trimmedTerm st)
      else keywordSearch fuel trimmedTerm st
  end.

End App.

(** ** Specification predicates *)

Module Spec.
Import Js Dom Parser App.

(** Every parent link points at a node at an earlier position whose level
    is one less, or is the root sentinel [0]. *)
Definition BackLinked (nodes : list Node) : Prop :=
  ∀ k n, nodes !! k = Some n →
    parentId n = 0%N ∨
    ∃ j p, j < k ∧ nodes !! j = Some p ∧ id p = parentId n
           ∧ S (level p) = level n.

(** What the row loop maintains: the sentinel entry, the origin of every
    other entry of [parentIds], and the back links of [rawData]. *)
Definition RowInv (st : RowState) : Prop :=
  (∀ k v, st.1 !! k = Some v →
     (k = (-1)%Z ∧ v = 0%N) ∨
     ∃ j p, st.2 !! j = Some p ∧ id p = v ∧ Z.of_nat (level p) = k)
  ∧ BackLinked st.2.

(** [p] is a parent of [c] in [nodes]: the link of [c] is not the sentinel
    and names the id of [p].  This is the step that the projector and the
    search take through the id map. *)
Definition IsParent (nodes : list Node) (p c : Node) : Prop :=
  p ∈ nodes ∧ c ∈ nodes ∧ parentId c ≠ 0%N ∧ id p = parentId c.

(** [s] contains [sub] as a contiguous substring. *)
Definition Contains (s sub : string) : Prop :=
  ∃ pre post, s = pre +:+ sub +:+ post.

(** The part of [s] before its first [.], and the part after it when there
    is one. *)
Fixpoint firstSegment (s : string) : string :=
  match s with
  | EmptyString => EmptyString
  | String c s' =>
      if Ascii.eqb c "." then EmptyString else String c (firstSegment s')
  end.

Fixpoint restAfterSep (s : string) : option string :=
  match s with
  | EmptyString => None
  | String c s' => if Ascii.eqb c "." then Some s' else restAfterSep s'
  end.

(** Description lookup as the specification words it: a key is a hit as
    soon as the dictionary has it; the third key is everything after the
    first separator. *)
Definition describeAsSpecified (definitions : gmap string string)
    (name : string) : string :=
  match definitions !! name with
  | Some d => d
  | None =>
      match restAfterSep name with
      | Some rest =>
          match definitions !! firstSegment name with
          | Some d => d
          | None => default "" (definitions !! rest)
          end
      | None => ""
      end
  end.


(** What the traversal loop maintains from [startWalk] on: nothing has
    happened while no segment is resolved, and afterwards the current node
    is the last match and is recorded as expanded. *)
Definition WalkInv (w : Walk) : Prop :=
  match matchedNodeId w with
  | None => i w = 0 ∧ newExpanded w = ∅ ∧ currentParentId w = 0%N
  | Some m => 0 < i w ∧ currentParentId w = m ∧ m ∈ newExpanded w
  end.

(** The keyword predicate as the specification words it: the field number
    is compared with the query as typed. *)
Definition keywordMatchAsSpecified (query : string) (item : Node) : bool :=
  includes (toLowerCase (name item)) (toLowerCase query)
  || includes (fieldNo item) query.

End Spec.

(** ** Example documents *)

Module Examples.
Import Js Dom Parser App.

(** A row whose text is the text of its cells. *)
Definition row (cells : list string) : Row :=
  mkRow (String.concat " " cells) cells.

(** The catalog of the round-trip example: cells are field number,
    cardinality, label, remark. *)
Definition roundTripDoc : Document :=
  [[ row ["1"; "0"; "Pip3A4.Root"; ""];
     row ["2"; "0"; "|--ServiceHeader"; ""];
     row ["3"; "0"; "|--|--ProcessControl"; ""] ]].

Definition roundTripTree : list Node :=
  [ mkNode 1 0 "1" 0 "Pip3A4.Root" "";
    mkNode 2 1 "2" 1 "ServiceHeader" "";
    mkNode 3 2 "3" 2 "ProcessControl" "" ].

(** A row whose label column holds only the indentation marker and whose
    next column holds a label with a deeper marker. *)
Definition shiftedRow : Row := row ["7"; "1"; "|--"; "|--|--Name"].

(** Two rows that carry the same field number, the second one level
    deeper. *)
Definition repeatedIdDoc : Document :=
  [[ row ["5"; "1"; "A"]; row ["5"; "1"; "|--B"] ]].

Definition repeatedIdTree : list Node :=
  [ mkNode 5 0 "5" 0 "A" ""; mkNode 5 5 "5" 1 "B" "" ].

(** A catalog whose only row has a field number that strips to [0]. *)
Definition zeroIdDoc : Document := [[ row ["#0"; "1"; "Alpha"] ]].

Definition zeroIdTree : list Node := [ mkNode 0 0 "#0" 0 "Alpha" "" ].

(** [ProcessControl] wrapped in a [Choice] node under [ServiceHeader]. *)
Definition choiceDoc : Document :=
  [[ row ["1"; "1"; "ServiceHeader"];
     row ["2"; "1"; "|--Choice"];
     row ["3"; "1"; "|--|--ProcessControl"] ]].

Definition choiceTree : list Node :=
  [ mkNode 1 0 "1" 0 "ServiceHeader" "";
    mkNode 2 1 "2" 1 "Choice" "";
    mkNode 3 2 "3" 2 "ProcessControl" "" ].

(** Two [Choice] groups under [ServiceHeader]; [ProcessControl] sits in the
    second one. *)
Definition twoChoiceDoc : Document :=
  [[ row ["1"; "1"; "ServiceHeader"];
     row ["2"; "1"; "|--Choice"];
     row ["3"; "1"; "|--|--Other"];
     row ["4"; "1"; "|--Choice"];
     row ["5"; "1"; "|--|--ProcessControl"] ]].

Definition twoChoiceTree : list Node :=
  [ mkNode 1 0 "1" 0 "ServiceHeader" "";
    mkNode 2 1 "2" 1 "Choice" "";
    mkNode 3 2 "3" 2 "Other" "";
    mkNode 4 1 "4" 1 "Choice" "";
    mkNode 5 4 "5" 2 "ProcessControl" "" ].

Definition examplePath : string := "/Pip3A4/ServiceHeader/ProcessControl".

(** A catalog row whose field number carries a capital letter. *)
Definition letteredDoc : Document := [[ row ["A1"; "1"; "x"] ]].

Definition letteredTree : list Node := [ mkNode 1 0 "A1" 0 "x" "" ].

(** A catalog with a header row and one node named [a.b.c], followed by a
    definition table with entries for [a.b.c] (a placeholder, stored as the
    empty string), [b.c] and [b]. *)
Definition describedDoc : Document :=
  [ [ row ["No"; "Card"; "Name"];
      row ["1"; "1"; "a.b.c"];
      mkRow "" [];
      mkRow "" [] ];
    [ mkRow "Name Definition" [];
      row ["a.b.c"; "Unformatted Text."];
      row ["b.c"; "tail"];
      row ["b"; "second"] ] ].

Definition describedTree : list Node := [ mkNode 1 0 "1" 0 "a.b.c" "second" ].

End Examples.

(** ** The storage service: file names as database keys *)

Module Files.
Import Js.

(** [s.replace(/c/g, rep)] for a single literal character [c]. *)
Fixpoint replaceChar (c : ascii) (rep : string) (s : string) : string :=
  match s with
  | EmptyString => EmptyString
  | String a s' =>
      if Ascii.eqb a c then rep +:+ replaceChar c rep s'
      else String a (replaceChar c rep s')
  end.

(** [s.replace(/pat/g, rep)] for a literal, non-empty [pat]: matches are
    taken from left to right and do not overlap; [skip] counts the
    characters of the current match that are still to be dropped. *)
Fixpoint replaceFrom (pat rep : string) (skip : nat) (s : string) : string :=
  match s with
  | EmptyString => EmptyString
  | String a s' =>
      match skip with
      | S k => replaceFrom pat rep k s'
      | O =>
          if startsWith s pat
          then rep +:+ replaceFrom pat rep (String.length pat - 1) s'
          else String a (replaceFrom pat rep 0 s')
      end
  end.

Definition replaceAll (pat rep : string) (s : string) : string :=
  replaceFrom pat rep 0 s.

Definition encodeFilename (filename : string) : string :=
  replaceChar "]" "_RBRACKET_"
    (replaceChar "[" "_LBRACKET_"
       (replaceChar "$" "_DOLLAR_"
          (replaceChar "#" "_HASH_"
             (replaceChar "." "_DOT_" filename)))).

Definition decodeFilename (encoded : string) : string :=
  replaceAll "_RBRACKET_" "]"
    (replaceAll "_LBRACKET_" "["
       (replaceAll "_DOLLAR_" "$"
          (replaceAll "_HASH_" "#"
             (replaceAll "_DOT_" "." encoded)))).

End Files.

(** ** Predicates for the storage keys *)

Module FilesSpec.
Import Js Files.

(** The characters a database path may not contain. *)
Inductive Special := Dot | Hash | Dollar | LBracket | RBracket.

Definition charOf (sp : Special) : ascii :=
  match sp with
  | Dot => "." | Hash => "#" | Dollar => "$"
  | LBracket => "[" | RBracket => "]"
  end%char.

Definition tokenOf (sp : Special) : string :=
  match sp with
  | Dot => "_DOT_" | Hash => "_HASH_" | Dollar => "_DOLLAR_"
  | LBracket => "_LBRACKET_" | RBracket => "_RBRACKET_"
  end.

Definition specialOf (a : ascii) : option Special :=
  if Ascii.eqb a "." then Some Dot
  else if Ascii.eqb a "#" then Some Hash
  else if Ascii.eqb a "$" then Some Dollar
  else if Ascii.eqb a "[" then Some LBracket
  else if Ascii.eqb a "]" then Some RBracket
  else None.

Definition isForbidden (a : ascii) : bool :=
  match specialOf a with Some _ => true | None => false end.

Definition isUpper (a : ascii) : bool :=
  ((65 <=? code a) && (code a <=? 90))%N.

(** Neither an underscore nor a capital letter. *)
Definition isPlainChar (a : ascii) : bool :=
  negb (Ascii.eqb a "_") && negb (isUpper a).

Fixpoint allChars (P : ascii -> bool) (s : string) : bool :=
  match s with
  | EmptyString => true
  | String a s' => P a && allChars P s'
  end.

(** A name in which the specials marked by [decoded] stand as themselves
    and the other specials as their tokens. *)
Definition piece (decoded : Special -> bool) (a : ascii) : string :=
  match specialOf a with
  | Some sp => if decoded sp then String a EmptyString else tokenOf sp
  | None => String a EmptyString
  end.

Fixpoint partly (decoded : Special -> bool) (s : string) : string :=
  match s with
  | EmptyString => EmptyString
  | String a s' => piece decoded a +:+ partly decoded s'
  end.

Definition alsoDecoded (x : Special) (decoded : Special -> bool)
  : Special -> bool :=
  fun sp =>
    match x, sp with
    | Dot, Dot | Hash, Hash | Dollar, Dollar
    | LBracket, LBracket | RBracket, RBracket => true
    | _, _ => decoded sp
    end.

End FilesSpec.

(** ** Predicates for the parser *)

Module ParserSpec.
Import Js Dom Parser.

Fixpoint anyChar (P : ascii -> bool) (s : string) : bool :=
  match s with
  | EmptyString => false
  | String a s' => P a || anyChar P s'
  end.

(** A row yields a node when it has at least three cells and its first
    cell holds a decimal digit. *)
Definition emits (tr : Row) : bool :=
  match tds tr with
  | c0 :: _ :: _ :: _ => anyChar isDigit c0
  | _ => false
  end.

Definition firstCellTrimmed (tr : Row) : string :=
  match tds tr with
  | c0 :: _ => trim c0
  | [] => EmptyString
  end.

(** The id of the last node of [nodes] at level [lvl]. *)
Definition lastAtLevel (nodes : list Node) (lvl : nat) : option N :=
  last (map id (List.filter (fun n => level n =? lvl) nodes)).

(** The parent a node of level [lvl] gets when [earlier] are the nodes
    emitted before it. *)
Definition expectedParent (earlier : list Node) (lvl : nat) : N :=
  match lvl with
  | O => 0%N
  | S l => default 0%N (lastAtLevel earlier l)
  end.

(** What the row loop maintains about [parentIds]: it records, for every
    level, the last node emitted at that level. *)
Definition LevelInv (st : RowState) : Prop :=
  st.1 !! (-1)%Z = Some 0%N
  ∧ (∀ l : nat, st.1 !! Z.of_nat l = lastAtLevel st.2 l)
  ∧ (∀ k n, st.2 !! k = Some n →
       parentId n = expectedParent (take k st.2) (level n)).

(** The shape of a node emitted for a row with the cells [c0 :: c1 :: c2 ::
    more]. *)
Definition nameOfCells (c2 : string) (more : list string) : string :=
  let cleanName := clean (mapChars nbspToSpace c2) in
  if isEmpty cleanName then
    match more with
    | c3 :: _ => clean c3
    | [] => cleanName
    end
  else cleanName.

Definition FromRow (definitions : gmap string string) (tr : Row) (n : Node)
  : Prop :=
  ∃ c0 c1 c2 more,
    tds tr = c0 :: c1 :: c2 :: more
    ∧ fieldNo n = trim c0
    ∧ parseInt (filterChars isDigit (trim c0)) = Some (id n)
    ∧ level n = countChar "|" (mapChars nbspToSpace c2)
    ∧ name n = nameOfCells c2 more
    ∧ description n = describe definitions (name n).

(** The first of the three keys of the description lookup -- the name,
    its first and its second dot-separated part -- that names a member of
    [Object.prototype]. *)
Definition inheritedKey (name : string) : option string :=
  List.find isInherited (name :: take 2 (split "." name)).

(** What every entry of the dictionary satisfies. *)
Definition DictInv (defs : gmap string string) : Prop :=
  ∀ key d, defs !! key = Some d →
    key ≠ "" ∧ trim key = key ∧ toLowerCase key ≠ "name"
    ∧ isUnformatted d = false ∧ trim d = d.

(** What the scoring loop has found after a run over [tables]. *)
Definition ScoreInv (tables : list Table) (st : option Table * nat) : Prop :=
  match st.1 with
  | None => st.2 = 0 ∧ ∀ t, t ∈ tables → 5 < length t → treeScore t = 0
  | Some m =>
      ∃ pre post,
        tables = pre ++ m :: post ∧ 5 < length m ∧ treeScore m = st.2
        ∧ 0 < st.2
        ∧ (∀ t, t ∈ pre → 5 < length t → treeScore t < st.2)
        ∧ (∀ t, t ∈ post → 5 < length t → treeScore t ≤ st.2)
  end.

End ParserSpec.

(** ** Further example documents *)

Module MoreExamples.
Import Js Dom Parser App Examples.

(** A short table full of markers, then a longer table with a single
    marker row, then a still longer one without markers. *)
Definition markedDoc : Document :=
  [ [ row ["1"; "1"; "|--a"]; row ["2"; "1"; "|--b"] ];
    [ row ["1"; "1"; "Root"]; row ["2"; "1"; "|--Child"];
      row ["3"; "1"; "x"]; row ["4"; "1"; "y"];
      row ["5"; "1"; "z"]; row ["6"; "1"; "w"] ];
    [ row ["1"]; row ["2"]; row ["3"]; row ["4"];
      row ["5"]; row ["6"]; row ["7"] ] ].

Definition markedMain : Table :=
  [ row ["1"; "1"; "Root"]; row ["2"; "1"; "|--Child"];
    row ["3"; "1"; "x"]; row ["4"; "1"; "y"];
    row ["5"; "1"; "z"]; row ["6"; "1"; "w"] ].

(** A catalog without definition table whose names meet members of
    [Object.prototype]. *)
Definition inheritedDoc : Document :=
  [ [ row ["1"; "1"; "constructor"]; row ["2"; "1"; "|--toString.Type"];
      row ["3"; "1"; "|--Plain.Type"] ] ].

Definition inheritedTree : list Node :=
  [ mkNode 1 0 "1" 0 "constructor" (Inherited "constructor");
    mkNode 2 1 "2" 1 "toString.Type" (Inherited "toString");
    mkNode 3 1 "3" 1 "Plain.Type" "" ].

(** A definition table that names [__proto__] and [constructor], after a
    catalog whose names meet members of [Object.prototype]. *)
Definition protoDoc : Document :=
  [ [ row ["1"; "1"; "__proto__"]; row ["2"; "1"; "|--constructor"];
      row ["3"; "1"; "|--valueOf"]; row ["4"; "1"; "|--Plain"] ];
    [ mkRow "Name Definition" [];
      row ["__proto__"; "ignored"];
      row ["constructor"; "made"] ] ].

Definition protoTree : list Node :=
  [ mkNode 1 0 "1" 0 "__proto__" (Inherited "__proto__");
    mkNode 2 1 "2" 1 "constructor" "made";
    mkNode 3 1 "3" 1 "valueOf" (Inherited "valueOf");
    mkNode 4 1 "4" 1 "Plain" "" ].

(** A field number beyond 2^53. *)
Definition largeIdRow : Row := row ["9007199254740993"; "1"; "Big"].

End MoreExamples.

(** ** Predicates for the view *)

Module AppSpec.
Import Js Parser App.

(** Starting from the id [c], every id on the way up to the sentinel [0]
    belongs to a node of [data] and is in [expanded]. *)
Inductive AncestorsIn (data : list Node) (expanded : gset N) : N -> Prop :=
| anc_root : AncestorsIn data expanded 0%N
| anc_step c p :
    c <> 0%N -> c ∈ expanded -> p ∈ data -> id p = c ->
    AncestorsIn data expanded (parentId p) ->
    AncestorsIn data expanded c.

(** The ids that occur in [data]. *)
Definition idSet (data : list Node) : gset N := list_to_set (map id data).

(** What the traversal loop maintains about its bounds: it stays inside
    the segment list and records only ids of nodes. *)
Definition WalkBound (data : list Node) (segments : list string) (w : Walk)
  : Prop :=
  i w ≤ length segments ∧ newExpanded w ⊆ idSet data.

End AppSpec.

(** ** Predicates for the dictionary and the path syntax *)

Module SyntaxSpec.
Import Js Dom Parser App.

(** The dictionary entry a row of a definition table writes, if any. *)
Definition rowEntry (tr : Row) : option (string * string) :=
  match tds tr with
  | c0 :: c1 :: _ =>
      let name := trim c0 in
      let def := trim c1 in
      if negb (isEmpty name) && negb (String.eqb (toLowerCase name) "name")
      then Some (name, if isUnformatted def then "" else def)
      else None
  | _ => None
  end.

(** All entries written while reading [doc], in the order of writing. *)
Definition writtenEntries (doc : Document) : list (string * string) :=
  omap rowEntry (concat (List.filter isDefTable doc)).

(** The description last written under [key]. *)
Definition lastWritten (key : string) (entries : list (string * string))
  : option string :=
  snd <$> last (List.filter (fun e => String.eqb (fst e) key) entries).

(** A path segment as a user writes it: non-empty, without slash and
    without opening bracket. *)
Definition simpleSegment (s : string) : Prop :=
  s <> EmptyString ∧ countChar "/" s = 0 ∧ countChar "[" s = 0.

End SyntaxSpec.

(** * Properties *)

Import Js Dom Parser App Spec Examples.

(** ** The tree builder *)

Section RowLoop.
Variable definitions : gmap string string.

Lemma initialRowState_inv : RowInv initialRowState.
Proof.
  split.
  - intros k v Hk. left. cbn in Hk.
    by apply lookup_singleton_Some in Hk as [<- <-].
  - intros k n H. cbn in H. by rewrite lookup_nil in H.
Qed.

Lemma processRow_inv st tr :
  RowInv st → RowInv (processRow definitions st tr).
Proof.
  destruct st as [parentIds rawData]. intros [Hids Hback].
  unfold processRow.
  destruct (tds tr) as [|c0 [|c1 [|c2 more]]]; try (split; done).
  destruct (parseInt _) as [newId|]; [|split; done].
  set (lvl := countChar "|" (mapChars nbspToSpace c2)).
  set (nm := if isEmpty _ then _ else _).
  set (node := mkNode _ _ _ _ _ _).
  split; cbn [fst snd].
  - intros k v Hk.
    destruct (decide (k = Z.of_nat lvl)) as [->|Hne].
    + rewrite lookup_insert_eq in Hk. injection Hk as <-.
      right. exists (length rawData), node.
      split; [|done]. by rewrite lookup_app_r, Nat.sub_diag.
    + rewrite lookup_insert_ne in Hk by done.
      destruct (Hids k v Hk) as [?|(j & p & Hj & ? & ?)]; [by left|].
      right. exists j, p. split; [|done].
      by apply lookup_app_l_Some.
  - intros k n Hk.
    apply lookup_app_Some in Hk as [Hk|[Hlen Hk]].
    + destruct (Hback k n Hk) as [?|(j & p & ? & Hj & ?)]; [by left|].
      right. exists j, p. split; [done|]. split; [|done].
      by apply lookup_app_l_Some.
    + apply list_lookup_singleton_Some in Hk as [Hz <-].
      assert (k = length rawData) as -> by lia.
      subst node. cbn [parentId level].
      destruct (parentIds !! (Z.of_nat lvl - 1)%Z) as [v|] eqn:Hv;
        [|by left].
      cbn [default].
      destruct (Hids _ _ Hv) as [[_ ->]|(j & p & Hj & Hp & Hl)]; [by left|].
      right. exists j, p.
      split; [by eapply lookup_lt_Some|].
      split; [by apply lookup_app_l_Some|]. split; [done|lia].
Qed.

Lemma fold_processRow_inv rows st :
  RowInv st → RowInv (fold_left (processRow definitions) rows st).
Proof.
  revert st. induction rows as [|tr rows IH]; intros st Hst; [done|].
  cbn. apply IH. by apply processRow_inv.
Qed.

Lemma buildTree_backLinked rows : BackLinked (buildTree definitions rows).
Proof.
  unfold buildTree.
  by destruct (fold_processRow_inv rows initialRowState initialRowState_inv).
Qed.

End RowLoop.

Lemma parse_backLinked doc nodes :
  parseRosettaNetHtml doc = Returns nodes → BackLinked nodes.
Proof.
  unfold parseRosettaNetHtml.
  destruct (selectMainTable doc); [|done].
  intros [= <-]. apply buildTree_backLinked.
Qed.

Lemma parse_roundTripDoc : parseRosettaNetHtml roundTripDoc = Returns roundTripTree.
Proof. vm_compute. reflexivity. Qed.

Lemma parse_repeatedIdDoc :
  parseRosettaNetHtml repeatedIdDoc = Returns repeatedIdTree.
Proof. vm_compute. reflexivity. Qed.

Lemma NoDup_id_position (nodes : list Node) j k p q :
  NoDup (map id nodes) →
  nodes !! j = Some p → nodes !! k = Some q → id p = id q → j = k.
Proof.
  intros Hnd Hj Hk Hid. apply (NoDup_lookup (map id nodes) j k (id p) Hnd).
  - change (map id nodes) with (id <$> nodes).
    by rewrite list_lookup_fmap, Hj.
  - change (map id nodes) with (id <$> nodes).
    by rewrite list_lookup_fmap, Hk, Hid.
Qed.

Lemma NoDup_id_node (nodes : list Node) j k p q :
  NoDup (map id nodes) →
  nodes !! j = Some p → nodes !! k = Some q → id p = id q → p = q.
Proof.
  intros Hnd Hj Hk Hid.
  pose proof (NoDup_id_position nodes j k p q Hnd Hj Hk Hid) as ->.
  congruence.
Qed.

(** With distinct ids, a parent stands before its child. *)
Lemma parent_earlier nodes p c k :
  BackLinked nodes → NoDup (map id nodes) →
  IsParent nodes p c → nodes !! k = Some c →
  ∃ j, j < k ∧ nodes !! j = Some p.
Proof.
  intros Hback Hnd (Hp & _ & Hnz & Hid) Hk.
  destruct (Hback k c Hk) as [Hz|(j & p' & Hlt & Hj & Hid' & _)]; [done|].
  apply list_elem_of_lookup in Hp as [i Hi].
  assert (p' = p) as ->
    by (eapply (NoDup_id_node nodes j i); [done..|congruence]).
  by exists j.
Qed.

Lemma ancestor_earlier nodes a c :
  BackLinked nodes → NoDup (map id nodes) →
  tc (IsParent nodes) a c →
  ∀ k, nodes !! k = Some c → ∃ j, j < k ∧ nodes !! j = Some a.
Proof.
  intros Hback Hnd Htc.
  induction Htc as [a c Hpar|a b c Hpar Htc IH]; intros k Hk.
  - by eapply parent_earlier.
  - destruct (IH k Hk) as (j & Hlt & Hj).
    destruct (parent_earlier nodes a b j Hback Hnd Hpar Hj) as (i & Hlt' & Hi).
    exists i. split; [lia|done].
Qed.

Lemma tc_IsParent_elem nodes a c : tc (IsParent nodes) a c → c ∈ nodes.
Proof. induction 1 as [a c (_ & Hc & _)|]; done. Qed.

Lemma parent_chains_acyclic nodes :
  BackLinked nodes → NoDup (map id nodes) →
  ∀ n, ¬ tc (IsParent nodes) n n.
Proof.
  intros Hback Hnd n Htc.
  pose proof (tc_IsParent_elem _ _ _ Htc) as [k Hk]%list_elem_of_lookup.
  destruct (ancestor_earlier nodes n n Hback Hnd Htc k Hk) as (j & Hlt & Hj).
  pose proof (NoDup_id_position nodes j k n n Hnd Hj Hk eq_refl). lia.
Qed.

(** C2, as the code has it. For every document the parser accepts, each
    emitted node's [parentId] is [0] or the [id] of a node emitted strictly
    earlier (whose level is one less): parent links never point forward.
    When the ids of the emitted nodes are pairwise distinct, no node is its
    own ancestor: the parent chains have no cycle. *)
Theorem parentId_refers_backwards doc nodes :
  parseRosettaNetHtml doc = Returns nodes →
  (∀ k n, nodes !! k = Some n →
     parentId n = 0%N ∨
     ∃ j p, j < k ∧ nodes !! j = Some p ∧ id p = parentId n
            ∧ S (level p) = level n)
  ∧ (NoDup (map id nodes) → ∀ n, ¬ tc (IsParent nodes) n n).
Proof.
  intros Hparse. pose proof (parse_backLinked doc nodes Hparse) as Hback.
  split; [exact Hback|]. intros Hnd. by apply parent_chains_acyclic.
Qed.

Lemma parentId_refers_backwards_witness :
  parseRosettaNetHtml roundTripDoc = Returns roundTripTree ∧
  (∀ k n, roundTripTree !! k = Some n →
     parentId n = 0%N ∨
     ∃ j p, j < k ∧ roundTripTree !! j = Some p ∧ id p = parentId n
            ∧ S (level p) = level n)
  ∧ (NoDup (map id roundTripTree) →
     ∀ n, ¬ tc (IsParent roundTripTree) n n).
Proof.
  split; [vm_compute; reflexivity|].
  apply (parentId_refers_backwards roundTripDoc roundTripTree).
  vm_compute; reflexivity.
Defined.

(** C2 as stated fails: the parser emits [repeatedIdTree] for two rows with
    the field number 5, the second one level deeper; its second node has
    its own id as [parentId], so it is its own parent and its parent chain
    is a cycle. *)
Lemma repeated_id_is_its_own_parent :
  parseRosettaNetHtml repeatedIdDoc = Returns repeatedIdTree ∧
  tc (IsParent repeatedIdTree)
     (mkNode 5 5 "5" 1 "B" "") (mkNode 5 5 "5" 1 "B" "").
Proof.
  split; [apply parse_repeatedIdDoc|].
  apply tc_once. split_and!; [right; left|right; left|done|done].
Qed.

(** ** Table selection and the error case *)

Lemma largestTable_None tables : largestTable tables = None ↔ tables = [].
Proof.
  destruct tables as [|t ts]; [split; done|]. cbn.
  destruct (largestTable ts) as [u|]; [|split; done].
  case_match; split; done.
Qed.

Lemma selectMainTable_None tables : selectMainTable tables = None ↔ tables = [].
Proof.
  unfold selectMainTable. split.
  - destruct (fold_left scoreStep tables (None, 0)).1; [done|].
    apply largestTable_None.
  - by intros ->.
Qed.

(** C4. The parser throws exactly when the document has no table; on every
    document with at least one table it returns a node list (possibly
    empty). *)
Theorem parse_throws_iff_no_table doc :
  (parseRosettaNetHtml doc = Throws NoTableStructure ↔ doc = []) ∧
  ((∃ nodes, parseRosettaNetHtml doc = Returns nodes) ↔ doc ≠ []).
Proof.
  unfold parseRosettaNetHtml.
  destruct (selectMainTable doc) as [t|] eqn:Hsel.
  - assert (doc ≠ []) as Hne.
    { intros Hnil. apply selectMainTable_None in Hnil. congruence. }
    split; split; try done. eauto.
  - apply selectMainTable_None in Hsel as ->.
    split; split; try done. by intros [? ?].
Qed.

Lemma parse_table_without_rows : parseRosettaNetHtml [[]] = Returns [].
Proof. reflexivity. Qed.

(** ** Name extraction and the cell-3 retry *)

Lemma shiftedRow_level_from_cell2 :
  buildTree ∅ [shiftedRow] = [mkNode 7 0 "7" 1 "Name" ""] ∧
  countChar "|" "|--|--Name" = 2.
Proof. split; reflexivity. Qed.

(** C5, as the code has it. When the label of cell 2 cleans to the empty
    name and a fourth cell exists, only the name is taken from cell 3 (its
    text with [|] and [-] removed, trimmed, without the non-breaking-space
    replacement); the level stays the pipe count of cell 2. *)
Theorem retry_recomputes_name_only definitions parentIds rawData
    text c0 c1 c2 c3 more newId :
  parseInt (filterChars isDigit (trim c0)) = Some newId →
  clean (mapChars nbspToSpace c2) = "" →
  let cell2Level := countChar "|" (mapChars nbspToSpace c2) in
  processRow definitions (parentIds, rawData)
    (mkRow text (c0 :: c1 :: c2 :: c3 :: more))
  = (<[Z.of_nat cell2Level := newId]> parentIds,
     rawData ++
       [mkNode newId
          (default 0%N (parentIds !! (Z.of_nat cell2Level - 1)%Z))
          (trim c0) cell2Level (clean c3)
          (describe definitions (clean c3))]).
Proof.
  intros Hid Hclean. unfold processRow. cbn [tds].
  by rewrite Hid, Hclean.
Qed.

Lemma retry_recomputes_name_only_witness :
  parseInt (filterChars isDigit (trim "7")) = Some 7%N ∧
  clean (mapChars nbspToSpace "|--") = "" ∧
  processRow ∅ initialRowState shiftedRow
  = (<[1%Z := 7%N]> initialRowState.1, [mkNode 7 0 "7" 1 "Name" ""]).
Proof.
  split; [reflexivity|]. split; [reflexivity|].
  exact (retry_recomputes_name_only ∅ initialRowState.1 []
           (textContent shiftedRow) "7" "1" "|--" "|--|--Name" [] 7%N
           eq_refl eq_refl).
Defined.

(** C5 as stated fails: the node emitted for [shiftedRow] has level 1, the
    pipe count of cell 2, although cell 3 holds two pipes. *)
Lemma retry_keeps_cell2_level :
  ¬ (∀ node, buildTree ∅ [shiftedRow] = [node] →
       level node = countChar "|" (mapChars nbspToSpace "|--|--Name")).
Proof.
  intros H. specialize (H _ (proj1 shiftedRow_level_from_cell2)).
  discriminate H.
Qed.

(** ** Description lookup *)

Lemma split_dot_unfold s :
  split "." s
  = firstSegment s :: match restAfterSep s with
                      | Some r => split "." r
                      | None => []
                      end.
Proof.
  induction s as [|c s IH]; [done|].
  cbn [split firstSegment restAfterSep].
  destruct (Ascii.eqb c "."); [done|]. by rewrite IH.
Qed.

Lemma split_dot_first s : split "." s !! 0 = Some (firstSegment s).
Proof. by rewrite split_dot_unfold. Qed.

Lemma split_dot_second s :
  split "." s !! 1 = firstSegment <$> restAfterSep s.
Proof.
  rewrite split_dot_unfold. cbn [lookup list_lookup].
  destruct (restAfterSep s) as [r|]; [|done].
  apply split_dot_first.
Qed.

(** The keys that [describe] tries, and their order. *)
Lemma describe_keys definitions cleanName :
  describe definitions cleanName =
  match truthyDef definitions cleanName with
  | Some d => d
  | None =>
      match truthyDef definitions (firstSegment cleanName) with
      | Some d => d
      | None =>
          match restAfterSep cleanName with
          | Some rest =>
              default (Str "") (truthyDef definitions (firstSegment rest))
          | None => ""
          end
      end
  end.
Proof.
  unfold describe. rewrite split_dot_first, split_dot_second.
  destruct (truthyDef definitions cleanName); [done|]. cbn [mbind option_bind].
  destruct (truthyDef definitions (firstSegment cleanName)); [done|].
  destruct (restAfterSep cleanName) as [rest|]; [|done].
  cbn. by destruct (truthyDef definitions (firstSegment rest)).
Qed.

Lemma processRow_described definitions st tr :
  (∀ n, n ∈ st.2 → description n = describe definitions (name n)) →
  ∀ n, n ∈ (processRow definitions st tr).2 →
       description n = describe definitions (name n).
Proof.
  destruct st as [parentIds rawData]. intros Hst n. unfold processRow.
  destruct (tds tr) as [|c0 [|c1 [|c2 more]]]; try apply Hst.
  destruct (parseInt _) as [newId|]; [|apply Hst].
  cbn [snd]. intros [Hn|Hn]%elem_of_app; [by apply Hst|].
  by apply list_elem_of_singleton in Hn as ->.
Qed.

Lemma buildTree_described definitions rows n :
  n ∈ buildTree definitions rows →
  description n = describe definitions (name n).
Proof.
  unfold buildTree.
  assert (∀ st, (∀ n, n ∈ st.2 → description n = describe definitions (name n)) →
            ∀ n, n ∈ (fold_left (processRow definitions) rows st).2 →
                 description n = describe definitions (name n)) as Hfold.
  { induction rows as [|tr rows IH]; intros st Hst; [done|].
    cbn [fold_left]. apply IH. by apply processRow_described. }
  apply Hfold. intros m Hm. by apply elem_of_nil in Hm.
Qed.

(** C6, as the code has it. The description of every emitted node is the
    first hit among three keys: the full name; the part of the name before
    its first separator; the part between its first and second separator
    (for [a.b.c] that key is [b]).  A key is a hit when the dictionary
    stores a non-empty description under it, or when it stores nothing
    under it and the key names a member of [Object.prototype]; the
    description is then that member, not a string.  An entry holding the
    empty string is not a hit, and without a hit the description is the
    empty string. *)
Theorem emitted_description_priority doc nodes n :
  parseRosettaNetHtml doc = Returns nodes →
  n ∈ nodes →
  description n =
  match truthyDef (extractDefinitions doc) (name n) with
  | Some d => d
  | None =>
      match truthyDef (extractDefinitions doc) (firstSegment (name n)) with
      | Some d => d
      | None =>
          match restAfterSep (name n) with
          | Some rest =>
              default (Str "")
                (truthyDef (extractDefinitions doc) (firstSegment rest))
          | None => ""
          end
      end
  end.
Proof.
  unfold parseRosettaNetHtml. destruct (selectMainTable doc); [|done].
  intros [= <-] Hn. rewrite <- describe_keys. by eapply buildTree_described.
Qed.

Lemma parse_describedDoc :
  parseRosettaNetHtml describedDoc = Returns describedTree.
Proof. vm_compute. reflexivity. Qed.

Lemma emitted_description_priority_witness :
  parseRosettaNetHtml describedDoc = Returns describedTree ∧
  mkNode 1 0 "1" 0 "a.b.c" "second" ∈ describedTree ∧
  Str "second" =
  match truthyDef (extractDefinitions describedDoc) "a.b.c" with
  | Some d => d
  | None =>
      match truthyDef (extractDefinitions describedDoc) (firstSegment "a.b.c") with
      | Some d => d
      | None =>
          match restAfterSep "a.b.c" with
          | Some rest =>
              default (Str "")
                (truthyDef (extractDefinitions describedDoc) (firstSegment rest))
          | None => ""
          end
      end
  end.
Proof.
  split; [vm_compute; reflexivity|]. split; [left|].
  refine (emitted_description_priority describedDoc describedTree
            (mkNode 1 0 "1" 0 "a.b.c" "second") _ _);
    [vm_compute; reflexivity | left].
Defined.

Lemma third_key_of_abc :
  restAfterSep "a.b.c" = Some "b.c" ∧ firstSegment "b.c" = "b".
Proof. split; reflexivity. Qed.

Lemma describe_differs_from_specified :
  describe {[ "b.c" := "tail" ]} "a.b.c" = ""
  ∧ describeAsSpecified {[ "b.c" := "tail" ]} "a.b.c" = "tail"
  ∧ describe {[ "b" := "second" ]} "a.b.c" = "second"
  ∧ describeAsSpecified {[ "b" := "second" ]} "a.b.c" = ""
  ∧ describe (<[ "a.b" := "" ]> {[ "a" := "head" ]}) "a.b" = "head"
  ∧ describeAsSpecified (<[ "a.b" := "" ]> {[ "a" := "head" ]}) "a.b" = "".
Proof. repeat split; vm_compute; reflexivity. Qed.

(** C6 as stated fails: in [describedDoc] the dictionary has entries under
    [b.c] and [b] and an empty one under [a.b.c]; the node named [a.b.c] is
    emitted with the description stored under [b], where the wording of the
    specification gives the empty entry of the full name, and, were that
    entry absent, the one under [b.c]. *)
Lemma describe_not_as_specified :
  ¬ ∀ nodes n,
      parseRosettaNetHtml describedDoc = Returns nodes → n ∈ nodes →
      description n
      = describeAsSpecified (extractDefinitions describedDoc) (name n).
Proof.
  intros H.
  specialize (H _ (mkNode 1 0 "1" 0 "a.b.c" "second") parse_describedDoc).
  discriminate H. left.
Qed.

(** ** Visibility projector *)

Section Projector.
Implicit Types (data : list Node) (m : gmap N Node) (expanded : gset N).




Lemma insert_ids_other data m k :
  k ∉ map id data →
  fold_left (λ acc d, <[id d := d]> acc) data m !! k = m !! k.
Proof.
  revert m. induction data as [|d data IH]; intros m Hk; [done|].
  cbn in *. apply not_elem_of_cons in Hk as [Hne Hk].
  rewrite IH by done. by rewrite lookup_insert_ne.
Qed.

Lemma insert_ids_unique data m p :
  NoDup (map id data) → p ∈ data →
  fold_left (λ acc d, <[id d := d]> acc) data m !! id p = Some p.
Proof.
  revert m. induction data as [|d data IH]; intros m Hnd Hp.
  - by apply elem_of_nil in Hp.
  - cbn in *. apply NoDup_cons in Hnd as [Hd Hnd].
    apply elem_of_cons in Hp as [->|Hp].
    + rewrite insert_ids_other by done. apply lookup_insert_eq.
    + by apply IH.
Qed.

Lemma mkIdMap_unique data p :
  NoDup (map id data) → p ∈ data → mkIdMap data !! id p = Some p.
Proof. apply insert_ids_unique. Qed.

Lemma elem_of_allParentIds data n :
  n ∈ allParentIds data ↔
  ∃ item child, item ∈ data ∧ child ∈ data ∧ id item = n
                ∧ parentId child = n.
Proof.
  unfold allParentIds. rewrite elem_of_list_to_set, list_elem_of_fmap.
  split.
  - intros (item & -> & Hin).
    apply list_elem_of_In, filter_In in Hin as [Hin Hch].
    apply existsb_exists in Hch as (child & Hc & Heq).
    exists item, child. rewrite <- !list_elem_of_In in *.
    by apply N.eqb_eq in Heq.
  - intros (item & child & Hi & Hc & <- & Hp).
    exists item. split; [done|].
    apply list_elem_of_In, filter_In. split; [by apply list_elem_of_In|].
    apply existsb_exists. exists child.
    split; [by apply list_elem_of_In|]. by apply N.eqb_eq.
Qed.





End Projector.





(** ** Path mode *)

Section PathMode.
Variables (data : list Node) (segments : list string).

Lemma iteration_advances w w' :
  iteration data segments w = Some w' → i w < i w'.
Proof.
  unfold iteration. intros Hit.
  repeat case_match; simplify_eq; cbn; lia.
Qed.

Lemma iteration_inv w w' : iteration data segments w = Some w' → WalkInv w'.
Proof.
  unfold iteration. intros Hit.
  repeat case_match; simplify_eq; unfold WalkInv; cbn;
    (split; [lia|]); (split; [done|]); set_solver.
Qed.

Lemma traverse_inv fuel w : WalkInv w → WalkInv (traverse fuel data segments w).
Proof.
  revert w. induction fuel as [|fuel IH]; intros w Hw; [done|].
  cbn [traverse].
  destruct (i w <? length segments); [|done].
  destruct (iteration data segments w) as [w'|] eqn:Hit; [|done].
  apply IH. by eapply iteration_inv.
Qed.

(** The fuel given by [resolvePath] does not cut the loop short: it ends
    because the segments are used up or because a pass ends in [break]. *)
Lemma traverse_finished fuel w :
  length segments ≤ fuel + i w →
  let w' := traverse fuel data segments w in
  length segments ≤ i w' ∨ iteration data segments w' = None.
Proof.
  revert w. induction fuel as [|fuel IH]; intros w Hfuel; cbn [traverse].
  - left. cbn in Hfuel. lia.
  - destruct (i w <? length segments) eqn:Hlt.
    + destruct (iteration data segments w) as [w'|] eqn:Hit; [|by right].
      apply IH. apply iteration_advances in Hit. lia.
    + left. apply Nat.ltb_ge in Hlt. lia.
Qed.

End PathMode.

Lemma startWalk_inv : WalkInv startWalk.
Proof. done. Qed.

Lemma resolvePath_inv trimmedTerm data : WalkInv (resolvePath trimmedTerm data).
Proof. apply traverse_inv, startWalk_inv. Qed.

Lemma resolvePath_finished trimmedTerm data :
  let segments := pathSegments trimmedTerm in
  let w := resolvePath trimmedTerm data in
  length segments ≤ i w ∨ iteration data segments w = None.
Proof. apply traverse_finished. cbn. lia. Qed.

(** The search effect enters path mode exactly on a non-empty trimmed term
    that holds a [/] or starts with [Pip], and then always returns. *)
Lemma searchEffect_path_mode fuel st :
  data st ≠ [] →
  isEmpty (trim (searchTerm st)) = false →
  isPathQuery (trim (searchTerm st)) = true →
  searchEffect fuel st = Some (pathSearch (trim (searchTerm st)) st).
Proof.
  intros Hne Hterm Hpath. unfold searchEffect.
  destruct (data st); [done|]. by rewrite Hterm, Hpath.
Qed.

(** C7, as the code has it. After a path query: when a segment resolved and
    the last resolved node's id is not [0], the expanded set is replaced by
    the accumulated expansions and the highlighted set is the singleton of
    that id; when no segment resolved, or the last resolved id is [0], the
    highlighted set becomes empty and the expanded set is left as it
    was. *)
Theorem pathSearch_result trimmedTerm st :
  let w := resolvePath trimmedTerm (data st) in
  let st' := pathSearch trimmedTerm st in
  match matchedNodeId w with
  | Some m =>
      0 < i w ∧
      if (m =? 0)%N
      then highlightedIds st' = ∅ ∧ expandedIds st' = expandedIds st
      else highlightedIds st' = {[ m ]} ∧ expandedIds st' = newExpanded w
  | None =>
      i w = 0 ∧ highlightedIds st' = ∅ ∧ expandedIds st' = expandedIds st
  end.
Proof.
  cbn zeta. unfold pathSearch. cbn [data setSearchMode].
  pose proof (resolvePath_inv trimmedTerm (data st)) as Hinv.
  unfold WalkInv in Hinv.
  destruct (matchedNodeId (resolvePath trimmedTerm (data st))) as [m|].
  - destruct Hinv as [Hi _]. split; [done|]. cbn [truthyId].
    by destruct (m =? 0)%N.
  - by destruct Hinv as [-> _].
Qed.

Lemma parse_zeroIdDoc : parseRosettaNetHtml zeroIdDoc = Returns zeroIdTree.
Proof. vm_compute. reflexivity. Qed.

Lemma resolve_zeroIdTree :
  resolvePath "/Alpha" zeroIdTree = mkWalk {[ 0%N ]} 0%N (Some 0%N) 1.
Proof. vm_compute. reflexivity. Qed.

(** C7 as stated fails: on [zeroIdTree] the query [/Alpha] resolves its one
    segment to the node with id [0], yet the highlighted set is not the
    singleton of that id and the expanded set is not replaced. *)
Lemma pathSearch_zero_id_not_highlighted :
  let st := mkState zeroIdTree {[ 7%N ]} "/Alpha" ∅ keyword in
  let w := resolvePath "/Alpha" (data st) in
  i w = 1 ∧ matchedNodeId w = Some 0%N ∧
  highlightedIds (pathSearch "/Alpha" st) ≠ {[ 0%N ]} ∧
  expandedIds (pathSearch "/Alpha" st) ≠ newExpanded w.
Proof.
  cbn zeta. cbn [data]. unfold pathSearch. cbn [data setSearchMode].
  rewrite resolve_zeroIdTree. cbn. split; [done|]. split; [done|].
  split; intros Heq;
    apply (f_equal (λ s : gset N, bool_decide (0%N ∈ s))) in Heq;
    vm_compute in Heq; discriminate Heq.
Qed.

(** C10. When the last resolved node has id [0], the path query ends as a
    failure although a segment resolved: the highlighted set is emptied and
    the expanded set is left unchanged. *)
Theorem zero_id_match_is_dropped trimmedTerm st :
  matchedNodeId (resolvePath trimmedTerm (data st)) = Some 0%N →
  0 < i (resolvePath trimmedTerm (data st))
  ∧ highlightedIds (pathSearch trimmedTerm st) = ∅
  ∧ expandedIds (pathSearch trimmedTerm st) = expandedIds st.
Proof.
  intros Hm.
  pose proof (resolvePath_inv trimmedTerm (data st)) as Hinv.
  unfold WalkInv in Hinv. rewrite Hm in Hinv. destruct Hinv as [Hi _].
  split; [done|]. unfold pathSearch. cbn [data setSearchMode].
  by rewrite Hm.
Qed.

Lemma zero_id_match_is_dropped_witness :
  parseRosettaNetHtml zeroIdDoc = Returns zeroIdTree ∧
  matchedNodeId (resolvePath "/Alpha" zeroIdTree) = Some 0%N ∧
  0 < i (resolvePath "/Alpha" zeroIdTree) ∧
  highlightedIds
    (pathSearch "/Alpha" (mkState zeroIdTree {[ 7%N ]} "/Alpha" {[ 9%N ]} keyword))
  = ∅ ∧
  expandedIds
    (pathSearch "/Alpha" (mkState zeroIdTree {[ 7%N ]} "/Alpha" {[ 9%N ]} keyword))
  = {[ 7%N ]}.
Proof.
  split; [vm_compute; reflexivity|].
  split; [vm_compute; reflexivity|].
  refine (zero_id_match_is_dropped "/Alpha"
            (mkState zeroIdTree {[ 7%N ]} "/Alpha" {[ 9%N ]} keyword) _).
  vm_compute. reflexivity.
Defined.

(** *** The Choice fallback *)

Lemma find_first {A} (f : A → bool) (l : list A) x :
  find f l = Some x →
  ∃ pre post, l = pre ++ x :: post ∧ f x = true ∧ ∀ y, y ∈ pre → f y = false.
Proof.
  induction l as [|a l IH]; [done|]. cbn. destruct (f a) eqn:Hfa.
  - intros [= ->]. exists [], l. split_and!; [done|done|].
    intros y Hy. by apply elem_of_nil in Hy.
  - intros Hfind. destruct (IH Hfind) as (pre & post & -> & Hx & Hpre).
    exists (a :: pre), post. split_and!; [done|done|].
    intros y [->|Hy]%elem_of_cons; [done|by apply Hpre].
Qed.

Lemma find_exists {A} (f : A → bool) (l : list A) :
  (∃ x, x ∈ l ∧ f x = true) → ∃ y, find f l = Some y ∧ y ∈ l ∧ f y = true.
Proof.
  intros (x & Hin & Hx). induction l as [|a l IH];
    [by apply elem_of_nil in Hin|].
  cbn. destruct (f a) eqn:Hfa.
  - exists a. split_and!; [done|left|done].
  - apply elem_of_cons in Hin as [->|Hin]; [congruence|].
    destruct (IH Hin) as (y & ? & ? & ?). exists y.
    split_and!; [done|by right|done].
Qed.

Lemma elem_of_childrenOf data parent x :
  x ∈ childrenOf data parent ↔ x ∈ data ∧ parentId x = parent.
Proof.
  unfold childrenOf. rewrite list_elem_of_In, filter_In, N.eqb_eq.
  by rewrite list_elem_of_In.
Qed.

(** The node taken as the Choice group is the first child of the current
    node that is named [Choice] or [(Choice)]. *)
Lemma choiceNode_first data w choice :
  choiceNode data w = Some choice →
  (name choice = "Choice" ∨ name choice = "(Choice)") ∧
  ∃ pre post,
    childrenOf data (currentParentId w) = pre ++ choice :: post ∧
    ∀ c, c ∈ pre → isChoice c = false.
Proof.
  intros (pre & post & Heq & Hc & Hpre)%find_first. split; [|by eauto].
  unfold isChoice in Hc. apply orb_true_iff in Hc.
  by rewrite !String.eqb_eq in Hc.
Qed.

(** C8, as the code has it. When neither the compound match nor the single
    match succeeds at a segment, and the first child of the current node
    named [Choice] or [(Choice)] has a child matching the segment under the
    single-match rule, the pass adds the ids of the Choice node and of the
    matched grandchild to the expanded set, makes the grandchild the current
    node and the last match, and consumes exactly one segment. *)
Theorem choice_fallback_descends data segments w segment choice :
  segments !! i w = Some segment →
  compoundMatch data segments w = None →
  singleMatch data segments w = None →
  choiceNode data w = Some choice →
  (∃ x, x ∈ data ∧ parentId x = id choice ∧ nameMatches segment x = true) →
  ∃ g, g ∈ data ∧ parentId g = id choice ∧ nameMatches segment g = true ∧
    iteration data segments w
    = Some (mkWalk ({[ id choice ]} ∪ {[ id g ]} ∪ newExpanded w)
                   (id g) (Some (id g)) (i w + 1)).
Proof.
  intros Hseg Hcomp Hsingle Hchoice (x & Hx & Hpx & Hmx).
  destruct (find_exists (nameMatches segment) (childrenOf data (id choice)))
    as (g & Hfind & Hg & Hmg).
  { exists x. by rewrite elem_of_childrenOf. }
  apply elem_of_childrenOf in Hg as [Hg Hpg].
  exists g. split_and!; [done|done|done|].
  unfold iteration. rewrite Hcomp, Hsingle, Hchoice.
  unfold matchInChoice. rewrite Hseg. cbn [mbind option_bind].
  rewrite Hfind. unfold descend. cbn [list_to_set foldr].
  by rewrite union_empty_r_L.
Qed.

Lemma parse_choiceDoc : parseRosettaNetHtml choiceDoc = Returns choiceTree.
Proof. vm_compute. reflexivity. Qed.

Lemma choice_fallback_descends_witness :
  let segments := ["ServiceHeader"; "ProcessControl"] in
  let w := mkWalk {[ 1%N ]} 1%N (Some 1%N) 1 in
  let choice := mkNode 2 1 "2" 1 "Choice" "" in
  ∃ g, g ∈ choiceTree ∧ parentId g = id choice
       ∧ nameMatches "ProcessControl" g = true ∧
    iteration choiceTree segments w
    = Some (mkWalk ({[ id choice ]} ∪ {[ id g ]} ∪ newExpanded w)
                   (id g) (Some (id g)) (i w + 1)).
Proof.
  refine (choice_fallback_descends choiceTree
            ["ServiceHeader"; "ProcessControl"]
            (mkWalk {[ 1%N ]} 1%N (Some 1%N) 1) "ProcessControl"
            (mkNode 2 1 "2" 1 "Choice" "") _ _ _ _ _);
    [reflexivity | vm_compute; reflexivity | vm_compute; reflexivity
    | vm_compute; reflexivity |].
  exists (mkNode 3 2 "3" 2 "ProcessControl" "").
  split; [do 2 right; left|]. split; reflexivity.
Defined.

(** The specification's Choice example, run through the whole search
    effect. *)
Lemma choice_example_resolves fuel expanded highlighted mode :
  searchEffect fuel (mkState choiceTree expanded examplePath highlighted mode)
  = Some (mkState choiceTree {[ 1%N; 2%N; 3%N ]} examplePath {[ 3%N ]} path).
Proof. vm_compute. reflexivity. Qed.

Lemma parse_twoChoiceDoc :
  parseRosettaNetHtml twoChoiceDoc = Returns twoChoiceTree.
Proof. vm_compute. reflexivity. Qed.

Lemma twoChoice_stops_at_ServiceHeader :
  resolvePath examplePath twoChoiceTree = mkWalk {[ 1%N ]} 1%N (Some 1%N) 1.
Proof. vm_compute. reflexivity. Qed.

(** C8 as stated fails: under [ServiceHeader] of [twoChoiceTree] neither the
    compound nor the single match succeeds for [ProcessControl], a child
    named [Choice] (node 4) has a child matching it, and yet the pass ends
    in [break]: only the first Choice child (node 2) is searched. *)
Lemma second_choice_is_not_searched :
  let segments := ["ServiceHeader"; "ProcessControl"] in
  let w := mkWalk {[ 1%N ]} 1%N (Some 1%N) 1 in
  segments !! i w = Some "ProcessControl" ∧
  compoundMatch twoChoiceTree segments w = None ∧
  singleMatch twoChoiceTree segments w = None ∧
  (∃ c g, c ∈ twoChoiceTree ∧ parentId c = currentParentId w
          ∧ name c = "Choice"
          ∧ g ∈ twoChoiceTree ∧ parentId g = id c
          ∧ nameMatches "ProcessControl" g = true) ∧
  iteration twoChoiceTree segments w = None.
Proof.
  cbn zeta. split_and!; try (vm_compute; reflexivity).
  exists (mkNode 4 1 "4" 1 "Choice" ""), (mkNode 5 4 "5" 2 "ProcessControl" "").
  split_and!; try reflexivity.
  - do 3 right. left.
  - do 4 right. left.
Qed.

(** ** The round-trip document under the example path *)

(** C1, as the code has it. On the tree parsed from the round-trip document
    the query [/Pip3A4/ServiceHeader/ProcessControl] resolves no segment:
    its [/Pip3A4/] prefix is dropped and the only root-level node,
    [Pip3A4.Root], does not match [ServiceHeader]; the highlighted set
    becomes empty and the expanded set is left unchanged.  The query that
    names the root node, [/Pip3A4/Root/ServiceHeader/ProcessControl],
    highlights exactly node 3 and expands exactly 1, 2 and 3. *)
Theorem roundTrip_path_query fuel expanded highlighted mode :
  parseRosettaNetHtml roundTripDoc = Returns roundTripTree
  ∧ searchEffect fuel
      (mkState roundTripTree expanded examplePath highlighted mode)
    = Some (mkState roundTripTree expanded examplePath ∅ path)
  ∧ searchEffect fuel
      (mkState roundTripTree expanded
         "/Pip3A4/Root/ServiceHeader/ProcessControl" highlighted mode)
    = Some (mkState roundTripTree {[ 1%N; 2%N; 3%N ]}
              "/Pip3A4/Root/ServiceHeader/ProcessControl" {[ 3%N ]} path).
Proof. split_and!; vm_compute; reflexivity. Qed.

(** C1 as stated fails: the example path does not highlight node 3 on the
    round-trip tree. *)
Lemma roundTrip_example_path_highlights_nothing :
  ¬ ∃ st',
      searchEffect 0 (mkState roundTripTree ∅ examplePath ∅ keyword) = Some st'
      ∧ highlightedIds st' = {[ 3%N ]}
      ∧ {[ 1%N; 2%N ]} ⊆ expandedIds st'.
Proof.
  intros (st' & Hrun & Hhl & _).
  vm_compute in Hrun. injection Hrun as <-. cbn in Hhl.
  apply (f_equal (λ s : gset N, bool_decide (3%N ∈ s))) in Hhl.
  vm_compute in Hhl. discriminate Hhl.
Qed.

(** ** Keyword mode *)

Lemma startsWith_prefix s p : startsWith s p = true ↔ ∃ post, s = p +:+ post.
Proof.
  revert s. induction p as [|a p IH]; intros s; cbn.
  - split; [eauto|done].
  - destruct s as [|b s].
    + split; [done|]. by intros [? ?].
    + rewrite andb_true_iff, Ascii.eqb_eq, IH. split.
      * intros [-> [post ->]]. by exists post.
      * intros [post [= -> ->]]. eauto.
Qed.

Lemma includes_Contains s sub : includes s sub = true ↔ Contains s sub.
Proof.
  unfold Contains. induction s as [|c s IH]; cbn [includes].
  - rewrite orb_false_r, startsWith_prefix. split.
    + intros [post ->]. by exists "", post.
    + intros ([|? ?] & post & Heq); [by exists post|done].
  - rewrite orb_true_iff, startsWith_prefix, IH. split.
    + intros [[post ->]|(pre & post & ->)].
      * by exists "", post.
      * by exists (String c pre), post.
    + intros ([|a pre] & post & Heq).
      * left. by exists post.
      * right. injection Heq as -> ->. by exists pre, post.
Qed.

Lemma keywordMatch_Contains lowerTerm item :
  keywordMatch lowerTerm item = true ↔
  Contains (toLowerCase (name item)) lowerTerm
  ∨ Contains (fieldNo item) lowerTerm.
Proof.
  unfold keywordMatch. by rewrite orb_true_iff, !includes_Contains.
Qed.

Section KeywordLoop.
Variable data : list Node.
Hypothesis Hback : BackLinked data.

(** On back-linked data the ancestor loop ends: the first node carrying the
    current id lies at an ever earlier position. *)
Lemma addAncestors_terminates fuel cur expanded :
  1 ≤ fuel →
  (cur = 0%N ∨ (∃ j p, j + 2 ≤ fuel ∧ data !! j = Some p ∧ id p = cur)
   ∨ find (λ d, (id d =? cur)%N) data = None) →
  is_Some (addAncestors fuel data cur expanded).
Proof.
  revert cur expanded.
  induction fuel as [|fuel IH]; intros cur expanded Hfuel Hcur; [lia|].
  cbn [addAncestors]. destruct (cur =? 0)%N eqn:Hz; [done|].
  apply N.eqb_neq in Hz.
  destruct (find _ data) as [parent|] eqn:Hfind; [|done].
  destruct Hcur as [?|[(j & p & Hj & Hp & Hid)|?]]; [done| |done].
  apply find_first in Hfind as (pre & post & Hdata & Hpar & Hpre).
  apply N.eqb_eq in Hpar.
  assert (length pre ≤ j) as Hle.
  { destruct (decide (length pre ≤ j)) as [|Hlt]; [done|].
    rewrite Hdata, lookup_app_l in Hp by lia.
    apply list_elem_of_lookup_2, Hpre, N.eqb_neq in Hp. done. }
  assert (data !! length pre = Some parent) as Hpos.
  { rewrite Hdata. by rewrite lookup_app_r, Nat.sub_diag. }
  destruct (Hback _ _ Hpos) as [Hroot|(j' & p' & Hlt & Hj' & Hid' & _)].
  - apply IH; [lia|by left].
  - apply IH; [lia|]. right. left. exists j', p'. split_and!; [lia|done|done].
Qed.

Lemma expandMatches_terminates fuel matches expanded :
  length data < fuel → matches ⊆ data →
  is_Some (expandMatches fuel data matches expanded).
Proof.
  intros Hfuel. revert expanded.
  induction matches as [|m matches IH]; intros expanded Hsub; [done|].
  cbn [expandMatches].
  assert (m ∈ data) as [k Hk]%list_elem_of_lookup by (apply Hsub; left).
  destruct (addAncestors_terminates fuel (parentId m) expanded) as [e He].
  { lia. }
  { destruct (Hback _ _ Hk) as [?|(j & p & Hlt & Hj & Hid & _)]; [by left|].
    right. left. exists j, p. apply lookup_lt_Some in Hk.
    split_and!; [lia|done|done]. }
  rewrite He. cbn. apply IH. intros x Hx. apply Hsub. by right.
Qed.

End KeywordLoop.

Lemma elem_of_highlighted data lowerTerm n :
  n ∈ (list_to_set (map id (List.filter (keywordMatch lowerTerm) data)) : gset N)
  ↔ ∃ item, item ∈ data ∧ id item = n ∧ keywordMatch lowerTerm item = true.
Proof.
  rewrite elem_of_list_to_set, list_elem_of_fmap. split.
  - intros (item & -> & [Hin Hm]%list_elem_of_In%filter_In).
    exists item. by rewrite list_elem_of_In.
  - intros (item & Hin & <- & Hm). exists item. split; [done|].
    apply list_elem_of_In, filter_In. by rewrite <- list_elem_of_In.
Qed.

(** C9, as the code has it. In keyword mode -- a non-empty tree produced by
    a parse, and a query that is not empty after trimming and is not a path
    query -- an id is highlighted exactly when some node with that id has a
    lower-cased name containing the lower-cased trimmed query, or a field
    number containing the lower-cased trimmed query (the field number
    itself is not lower-cased).  A blank query is not a keyword search: it
    clears the highlights. *)
Theorem keyword_highlight_characterised doc st fuel :
  parseRosettaNetHtml doc = Returns (data st) →
  data st ≠ [] →
  isEmpty (trim (searchTerm st)) = false →
  isPathQuery (trim (searchTerm st)) = false →
  length (data st) < fuel →
  ∃ st',
    searchEffect fuel st = Some st' ∧ searchMode st' = keyword ∧
    ∀ n, n ∈ highlightedIds st' ↔
         ∃ item, item ∈ data st ∧ id item = n ∧
           (Contains (toLowerCase (name item))
                     (toLowerCase (trim (searchTerm st)))
            ∨ Contains (fieldNo item) (toLowerCase (trim (searchTerm st)))).
Proof.
  intros Hparse Hne Hterm Hpath Hfuel. apply parse_backLinked in Hparse.
  unfold searchEffect. destruct (data st) as [|d l] eqn:Hdata; [done|].
  rewrite <- Hdata in *. rewrite Hterm, Hpath. unfold keywordSearch.
  cbn [data expandedIds setSearchMode].
  destruct (expandMatches_terminates (data st) Hparse fuel
              (List.filter (keywordMatch (toLowerCase (trim (searchTerm st))))
                           (data st)) (expandedIds st)) as [e He].
  { done. }
  { intros x [Hx _]%list_elem_of_In%filter_In. by apply list_elem_of_In. }
  rewrite He. cbn [mbind option_bind]. eexists. split; [done|].
  split; [done|]. intros n. cbn [highlightedIds setExpandedIds setHighlightedIds].
  rewrite elem_of_highlighted.
  by setoid_rewrite keywordMatch_Contains.
Qed.

Lemma parse_letteredDoc : parseRosettaNetHtml letteredDoc = Returns letteredTree.
Proof. vm_compute. reflexivity. Qed.

Lemma keyword_highlight_characterised_witness :
  let st := mkState roundTripTree ∅ " Service " ∅ keyword in
  parseRosettaNetHtml roundTripDoc = Returns roundTripTree ∧
  ∃ st',
    searchEffect 4 st = Some st' ∧ searchMode st' = keyword ∧
    ∀ n, n ∈ highlightedIds st' ↔
         ∃ item, item ∈ roundTripTree ∧ id item = n ∧
           (Contains (toLowerCase (name item)) "service"
            ∨ Contains (fieldNo item) "service").
Proof.
  cbn zeta. split; [vm_compute; reflexivity|].
  refine (keyword_highlight_characterised roundTripDoc
            (mkState roundTripTree ∅ " Service " ∅ keyword) 4 _ _ _ _ _);
    [vm_compute; reflexivity | discriminate | reflexivity | reflexivity
    | cbn; lia].
Defined.

Lemma lettered_query_result :
  searchEffect 2 (mkState letteredTree ∅ "A1" ∅ path)
  = Some (mkState letteredTree ∅ "A1" ∅ keyword).
Proof. vm_compute. reflexivity. Qed.

(** C9 as stated fails: the node with field number [A1] contains the query
    [A1] as typed, but the keyword search for [A1] leaves it out, because
    the field number is compared with the lower-cased query [a1]. *)
Lemma fieldNo_is_matched_against_lowered_query :
  ¬ ∀ st',
      searchEffect 2 (mkState letteredTree ∅ "A1" ∅ path) = Some st' →
      ∀ item, item ∈ letteredTree →
        (id item ∈ highlightedIds st' ↔
         keywordMatchAsSpecified "A1" item = true).
Proof.
  intros H. specialize (H _ lettered_query_result (mkNode 1 0 "A1" 0 "x" "")).
  destruct H as [_ H]; [left|]. cbn [highlightedIds] in H.
  specialize (H eq_refl). by apply not_elem_of_empty in H.
Qed.

(** * Further properties of the code *)

(** ** File names as database keys *)

Section FileNames.
Import Files FilesSpec.

Lemma string_app_cons a (s t : string) : String a s +:+ t = String a (s +:+ t).
Proof. reflexivity. Qed.

Lemma string_app_nil_l (t : string) : "" +:+ t = t.
Proof. reflexivity. Qed.

Lemma string_app_assoc (s1 s2 s3 : string) :
  (s1 +:+ s2) +:+ s3 = s1 +:+ (s2 +:+ s3).
Proof.
  induction s1 as [|a s1 IH]; [done|]. rewrite !string_app_cons. by rewrite IH.
Qed.

Local Ltac norm_app := rewrite ?string_app_cons, ?string_app_nil_l.

Lemma replaceChar_app c rep s1 s2 :
  replaceChar c rep (s1 +:+ s2) = replaceChar c rep s1 +:+ replaceChar c rep s2.
Proof.
  induction s1 as [|a s1 IH]; [done|]. norm_app.
  cbn [replaceChar]. rewrite IH.
  destruct (Ascii.eqb a c); [|done]. by rewrite string_app_assoc.
Qed.

Lemma encodeFilename_app s1 s2 :
  encodeFilename (s1 +:+ s2) = encodeFilename s1 +:+ encodeFilename s2.
Proof. unfold encodeFilename. by rewrite !replaceChar_app. Qed.

Lemma encodeFilename_char a :
  encodeFilename (String a "") = piece (λ _, false) a.
Proof.
  unfold encodeFilename, piece, specialOf, tokenOf. cbn [replaceChar].
  destruct (Ascii.eqb a "."); [vm_compute; reflexivity|]. cbn [replaceChar].
  destruct (Ascii.eqb a "#"); [vm_compute; reflexivity|]. cbn [replaceChar].
  destruct (Ascii.eqb a "$"); [vm_compute; reflexivity|]. cbn [replaceChar].
  destruct (Ascii.eqb a "["); [vm_compute; reflexivity|]. cbn [replaceChar].
  destruct (Ascii.eqb a "]"); [vm_compute; reflexivity|]. reflexivity.
Qed.

(** The five replacements never touch one another's output: encoding acts
    character by character. *)
Lemma encodeFilename_partly filename :
  encodeFilename filename = partly (λ _, false) filename.
Proof.
  induction filename as [|a f IH]; [done|].
  change (String a f) with (String a "" +:+ f).
  rewrite encodeFilename_app, encodeFilename_char, IH. done.
Qed.

Lemma allChars_app P s1 s2 :
  allChars P (s1 +:+ s2) = allChars P s1 && allChars P s2.
Proof.
  induction s1 as [|a s1 IH]; [done|]. norm_app.
  cbn [allChars]. by rewrite IH, andb_assoc.
Qed.

Lemma piece_encoded_allowed a :
  allChars (λ c, negb (isForbidden c)) (piece (λ _, false) a) = true.
Proof.
  unfold piece. destruct (specialOf a) as [[]|] eqn:Hsp; try reflexivity.
  cbn. unfold isForbidden. by rewrite Hsp.
Qed.

(** X1. An encoded file name holds none of the characters [. # $ [ ]]. *)
Theorem encodeFilename_no_forbidden filename :
  allChars (λ c, negb (isForbidden c)) (encodeFilename filename) = true.
Proof.
  rewrite encodeFilename_partly.
  induction filename as [|a f IH]; [done|].
  cbn [partly]. by rewrite allChars_app, piece_encoded_allowed, IH.
Qed.

(** The text that follows a piece never begins with a capital letter. *)
Lemma partly_head_not_upper decoded f U body :
  allChars isPlainChar f = true → isUpper U = true →
  startsWith (partly decoded f) (String U body) = false.
Proof.
  intros Hf HU. destruct f as [|a f]; [done|].
  cbn in Hf. apply andb_true_iff in Hf as [Ha _].
  unfold isPlainChar in Ha. apply andb_true_iff in Ha as [_ Hup].
  cbn [partly]. unfold piece.
  assert (Ascii.eqb U a = false) as Hne.
  { apply Ascii.eqb_neq. intros ->. by rewrite HU in Hup. }
  assert (Ascii.eqb U "_" = false) as Hu.
  { apply Ascii.eqb_neq. intros ->. discriminate HU. }
  destruct (specialOf a) as [sp|]; [destruct (decoded sp)|];
    [| destruct sp; unfold tokenOf |]; norm_app; cbn [startsWith];
    by rewrite ?Hne, ?Hu.
Qed.

Lemma startsWith_same a s p : startsWith (String a s) (String a p) = startsWith s p.
Proof. cbn [startsWith]. by rewrite Ascii.eqb_refl. Qed.

Lemma startsWith_diff a b s p :
  Ascii.eqb a b = false → startsWith (String b s) (String a p) = false.
Proof. intros Hab. cbn [startsWith]. by rewrite Hab. Qed.

Lemma replaceFrom_keep pat rep a s :
  startsWith (String a s) pat = false →
  replaceFrom pat rep 0 (String a s) = String a (replaceFrom pat rep 0 s).
Proof. intros Hsw. cbn [replaceFrom]. by rewrite Hsw. Qed.

Lemma replaceFrom_match pat rep a s :
  startsWith (String a s) pat = true →
  replaceFrom pat rep 0 (String a s)
  = rep +:+ replaceFrom pat rep (String.length pat - 1) s.
Proof. intros Hsw. cbn [replaceFrom]. by rewrite Hsw. Qed.

Lemma replaceFrom_skip pat rep k a s :
  replaceFrom pat rep (S k) (String a s) = replaceFrom pat rep k s.
Proof. reflexivity. Qed.

Local Ltac solve_startsWith Hhead :=
  repeat first [ rewrite startsWith_same
               | rewrite startsWith_diff by reflexivity
               | rewrite Hhead by reflexivity ];
  reflexivity.

Lemma decode_stage x decoded f :
  allChars isPlainChar f = true →
  replaceAll (tokenOf x) (String (charOf x) "") (partly decoded f)
  = partly (alsoDecoded x decoded) f.
Proof.
  unfold replaceAll. intros Hf. induction f as [|a f IH]; [done|].
  cbn in Hf. apply andb_true_iff in Hf as [Ha Hf].
  specialize (IH Hf).
  pose proof (λ U body, partly_head_not_upper decoded f U body Hf) as Hhead.
  cbn [partly]. unfold piece.
  assert (Ascii.eqb "_" a = false) as Hne.
  { unfold isPlainChar in Ha. apply andb_true_iff in Ha as [Hu _].
    rewrite Ascii.eqb_sym. by apply negb_true_iff in Hu. }
  assert (∀ rest,
    replaceFrom (tokenOf x) (String (charOf x) "") 0 (String a rest)
    = String a (replaceFrom (tokenOf x) (String (charOf x) "") 0 rest))
    as Hplain.
  { intros rest. apply replaceFrom_keep.
    destruct x; by apply startsWith_diff. }
  destruct (specialOf a) as [sp|] eqn:Hsp.
  - destruct (decoded sp) eqn:Hdec.
    + norm_app. rewrite Hplain, IH.
      destruct x, sp; cbn [alsoDecoded]; rewrite ?Hdec; reflexivity.
    + assert (a = charOf sp) as ->.
      { unfold specialOf in Hsp.
        destruct (Ascii.eqb_spec a ".") as [->|_]; [by injection Hsp as <-|].
        destruct (Ascii.eqb_spec a "#") as [->|_]; [by injection Hsp as <-|].
        destruct (Ascii.eqb_spec a "$") as [->|_]; [by injection Hsp as <-|].
        destruct (Ascii.eqb_spec a "[") as [->|_]; [by injection Hsp as <-|].
        destruct (Ascii.eqb_spec a "]") as [->|_]; [by injection Hsp as <-|].
        discriminate Hsp. }
      clear Hplain Hne Ha Hsp.
      destruct x, sp; unfold tokenOf, charOf in *; norm_app;
        cbn [alsoDecoded]; rewrite ?Hdec;
        repeat (rewrite replaceFrom_keep by solve_startsWith Hhead);
        try (rewrite replaceFrom_match by solve_startsWith Hhead;
             cbn [String.length Nat.sub]; rewrite !replaceFrom_skip);
        by rewrite IH.
  - norm_app. by rewrite Hplain, IH.
Qed.

Lemma partly_all_decoded f : partly (λ _, true) f = f.
Proof.
  induction f as [|a f IH]; [done|]. cbn [partly]. unfold piece.
  rewrite IH. by destruct (specialOf a).
Qed.

Lemma partly_ext d1 d2 f : (∀ sp, d1 sp = d2 sp) → partly d1 f = partly d2 f.
Proof.
  intros Hd. induction f as [|a f IH]; [done|]. cbn [partly]. unfold piece.
  rewrite IH. destruct (specialOf a) as [sp|]; [|done]. by rewrite Hd.
Qed.

Lemma decode_partly_all f :
  allChars isPlainChar f = true →
  decodeFilename (partly (λ _, false) f) = f.
Proof.
  intros Hf. unfold decodeFilename.
  rewrite (decode_stage Dot), (decode_stage Hash), (decode_stage Dollar),
    (decode_stage LBracket), (decode_stage RBracket) by done.
  rewrite <- (partly_all_decoded f) at 2.
  apply partly_ext. by intros [].
Qed.

(** X2. Decoding an encoded file name gives the name back, for a name
    without underscores and capital letters. *)
Theorem decode_encode_plain filename :
  allChars isPlainChar filename = true →
  decodeFilename (encodeFilename filename) = filename.
Proof. intros Hf. rewrite encodeFilename_partly. by apply decode_partly_all. Qed.

Lemma decode_encode_plain_witness :
  allChars isPlainChar "pip3a4.v02[1].html" = true ∧
  decodeFilename (encodeFilename "pip3a4.v02[1].html") = "pip3a4.v02[1].html".
Proof.
  split; [reflexivity|].
  exact (decode_encode_plain "pip3a4.v02[1].html" eq_refl).
Defined.

(** Without the restriction the round trip can fail: a token body between
    two specials is taken for a token. *)
Lemma decode_encode_capitals :
  decodeFilename (encodeFilename "#DOT#") = "_HASH.HASH_".
Proof. vm_compute. reflexivity. Qed.

(** X23. Two names without underscores and capital letters that encode to
    the same key are the same name: such files never overwrite one another
    in the store. *)
Theorem encode_injective_plain f1 f2 :
  allChars isPlainChar f1 = true →
  allChars isPlainChar f2 = true →
  encodeFilename f1 = encodeFilename f2 →
  f1 = f2.
Proof.
  intros H1 H2 Heq. rewrite !encodeFilename_partly in Heq.
  rewrite <- (decode_partly_all f1 H1), <- (decode_partly_all f2 H2).
  by rewrite Heq.
Qed.

Lemma encode_injective_plain_witness :
  allChars isPlainChar "a.b#c" = true ∧
  encodeFilename "a.b#c" = encodeFilename "a.b#c" ∧
  "a.b#c" = "a.b#c".
Proof.
  split; [reflexivity|]. split; [reflexivity|].
  exact (encode_injective_plain "a.b#c" "a.b#c" eq_refl eq_refl eq_refl).
Defined.

(** With underscores allowed, two different names can share a key. *)
Lemma encode_collision : encodeFilename "a.b" = encodeFilename "a_DOT_b".
Proof. vm_compute. reflexivity. Qed.

End FileNames.

(** ** The row loop: which rows are emitted, and with what parent *)

Section RowLoopMore.
Import ParserSpec.
Variable definitions : gmap string string.

Lemma processRow_cases st tr :
  (emits tr = false ∧ processRow definitions st tr = st)
  ∨ (emits tr = true ∧
     ∃ n, FromRow definitions tr n
          ∧ parentId n = default 0%N (st.1 !! (Z.of_nat (level n) - 1)%Z)
          ∧ processRow definitions st tr
            = (<[Z.of_nat (level n) := id n]> st.1, st.2 ++ [n])).
Proof.
  destruct st as [parentIds rawData]. unfold processRow, emits.
  destruct (tds tr) as [|c0 [|c1 [|c2 more]]] eqn:Htds; try by left.
  assert (parseInt (filterChars isDigit (trim c0)) = None
          ↔ anyChar isDigit c0 = false) as Hdigits.
  { clear. unfold trim.
    assert (∀ s, anyChar isDigit (trimStart s) = anyChar isDigit s) as Hs.
    { induction s as [|a s IH]; [done|]. cbn [trimStart anyChar].
      destruct (isSpace a) eqn:Hsp; [|done]. rewrite IH.
      assert (isDigit a = false) as ->; [|done].
      unfold isSpace, isDigit in *. destruct (code a); [done|].
      repeat (apply orb_true_iff in Hsp as [Hsp|Hsp]);
        rewrite ?andb_true_iff, ?N.leb_le, ?N.eqb_eq in Hsp;
        apply andb_false_iff; rewrite !N.leb_gt; lia. }
    assert (∀ s, anyChar isDigit (trimEnd s) = anyChar isDigit s) as He.
    { induction s as [|a s IH]; [done|]. cbn [trimEnd anyChar].
      destruct (isSpace a && isEmpty (trimEnd s)) eqn:Hc.
      - apply andb_true_iff in Hc as [Hsp Hr].
        destruct (trimEnd s); [|done]. cbn in IH. rewrite <- IH.
        assert (isDigit a = false) as ->; [|done].
        unfold isSpace, isDigit in *. destruct (code a); [done|].
        repeat (apply orb_true_iff in Hsp as [Hsp|Hsp]);
          rewrite ?andb_true_iff, ?N.leb_le, ?N.eqb_eq in Hsp;
          apply andb_false_iff; rewrite !N.leb_gt; lia.
      - cbn [anyChar]. by rewrite IH. }
    rewrite <- (Hs c0), <- (He (trimStart c0)).
    generalize (trimEnd (trimStart c0)). intros s.
    induction s as [|a s IH]; [done|]. cbn [filterChars anyChar].
    destruct (isDigit a) eqn:Hd; [|done]. cbn [parseInt]. by rewrite Hd. }
  destruct (parseInt (filterChars isDigit (trim c0))) as [newId|] eqn:Hid.
  - right. split.
    { destruct (anyChar isDigit c0); [done|].
      by destruct Hdigits as [_ Habs]; specialize (Habs eq_refl). }
    exists (mkNode newId
              (default 0%N
                 (parentIds
                  !! (Z.of_nat (countChar "|" (mapChars nbspToSpace c2)) - 1)%Z))
              (trim c0) (countChar "|" (mapChars nbspToSpace c2))
              (nameOfCells c2 more)
              (describe definitions (nameOfCells c2 more))).
    split; [|split; reflexivity].
    exists c0, c1, c2, more. split_and!; reflexivity || done.
  - left. split; [by apply Hdigits|done].
Qed.

Lemma fold_processRow_fieldNo rows st :
  map fieldNo (fold_left (processRow definitions) rows st).2
  = map fieldNo st.2 ++ map firstCellTrimmed (List.filter emits rows).
Proof.
  revert st. induction rows as [|tr rows IH]; intros st.
  - cbn. by rewrite app_nil_r.
  - cbn [fold_left List.filter]. rewrite IH.
    destruct (processRow_cases st tr)
      as [[-> ->]|[-> (n & (c0 & c1 & c2 & more & Htds & Hf & _) & _ & ->)]];
      [done|].
    cbn [snd map]. rewrite map_app, <- app_assoc. cbn [map app].
    unfold firstCellTrimmed at 2. by rewrite Htds, Hf.
Qed.

Lemma fold_processRow_origin rows st n :
  n ∈ (fold_left (processRow definitions) rows st).2 →
  n ∈ st.2 ∨ ∃ tr, tr ∈ rows ∧ FromRow definitions tr n.
Proof.
  revert st. induction rows as [|tr rows IH]; intros st Hn; [by left|].
  cbn [fold_left] in Hn. apply IH in Hn as [Hn|(tr' & Hin & Hfrom)].
  - destruct (processRow_cases st tr) as [[_ Heq]|[_ (m & Hm & _ & Heq)]];
      rewrite Heq in Hn; [by left|].
    cbn [snd] in Hn. apply elem_of_app in Hn as [Hn|Hn]; [by left|].
    apply list_elem_of_singleton in Hn as ->.
    right. exists tr. split; [left|done].
  - right. exists tr'. split; [by right|done].
Qed.

Lemma initialRowState_levelInv : LevelInv initialRowState.
Proof.
  split_and!.
  - done.
  - intros l. cbn. apply lookup_singleton_ne. lia.
  - intros k n Hk. cbn in Hk. by rewrite lookup_nil in Hk.
Qed.

Lemma lastAtLevel_snoc nodes n l :
  lastAtLevel (nodes ++ [n]) l
  = if level n =? l then Some (id n) else lastAtLevel nodes l.
Proof.
  unfold lastAtLevel. rewrite List.filter_app. cbn [List.filter].
  destruct (level n =? l); [|by rewrite app_nil_r].
  rewrite map_app. cbn [map]. apply last_snoc.
Qed.

Lemma processRow_levelInv st tr :
  LevelInv st → LevelInv (processRow definitions st tr).
Proof.
  intros (Hroot & Hlast & Hpar).
  destruct (processRow_cases st tr) as [[_ ->]|[_ (n & _ & Hn & ->)]];
    [done|].
  split_and!; cbn [fst snd].
  - rewrite lookup_insert_ne by lia. done.
  - intros l. rewrite lastAtLevel_snoc.
    destruct (Nat.eqb_spec (level n) l) as [->|Hne].
    + by rewrite lookup_insert_eq.
    + rewrite lookup_insert_ne by lia. apply Hlast.
  - intros k m Hk. apply lookup_app_Some in Hk as [Hk|[Hlen Hk]].
    + rewrite take_app_le by (apply lookup_lt_Some in Hk; lia).
      by apply Hpar.
    + apply list_lookup_singleton_Some in Hk as [Hz <-].
      assert (k = length st.2) as -> by lia.
      rewrite take_app_length. rewrite Hn. unfold expectedParent.
      destruct (level n) as [|l].
      { replace (Z.of_nat 0 - 1)%Z with (-1)%Z by lia. by rewrite Hroot. }
      replace (Z.of_nat (S l) - 1)%Z with (Z.of_nat l) by lia.
      by rewrite Hlast.
Qed.

Lemma fold_processRow_levelInv rows st :
  LevelInv st → LevelInv (fold_left (processRow definitions) rows st).
Proof.
  revert st. induction rows as [|tr rows IH]; intros st Hst; [done|].
  cbn [fold_left]. by apply IH, processRow_levelInv.
Qed.

End RowLoopMore.

(** ** Facts about [trim] and [clean] *)

Section TrimFacts.

Lemma trimStart_head s :
  trimStart s = "" ∨ ∃ a r, trimStart s = String a r ∧ isSpace a = false.
Proof.
  induction s as [|a s IH]; [by left|]. cbn [trimStart].
  destruct (isSpace a) eqn:Ha; [done|]. right. by exists a, s.
Qed.

Lemma trimEnd_idem s : trimEnd (trimEnd s) = trimEnd s.
Proof.
  induction s as [|a s IH]; [done|]. cbn [trimEnd].
  destruct (isSpace a && isEmpty (trimEnd s)) eqn:Hc; [done|].
  cbn [trimEnd]. by rewrite IH, Hc.
Qed.

Lemma trimStart_trimEnd s :
  (s = "" ∨ ∃ a r, s = String a r ∧ isSpace a = false) →
  trimStart (trimEnd s) = trimEnd s.
Proof.
  intros [->|(a & r & -> & Ha)]; [done|].
  cbn [trimEnd]. rewrite Ha. cbn [andb trimStart]. by rewrite Ha.
Qed.

Lemma trim_idem s : trim (trim s) = trim s.
Proof.
  unfold trim. rewrite trimStart_trimEnd by apply trimStart_head.
  apply trimEnd_idem.
Qed.

Lemma countChar_trimStart x s : countChar x (trimStart s) ≤ countChar x s.
Proof.
  induction s as [|a s IH]; [done|]. cbn [trimStart].
  destruct (isSpace a); [|done]. cbn [countChar]. lia.
Qed.

Lemma countChar_trimEnd x s : countChar x (trimEnd s) ≤ countChar x s.
Proof.
  induction s as [|a s IH]; [done|]. cbn [trimEnd].
  destruct (isSpace a && isEmpty (trimEnd s)); cbn [countChar]; lia.
Qed.

Lemma countChar_filterChars keep x s :
  keep x = false → countChar x (filterChars keep s) = 0.
Proof.
  intros Hx. induction s as [|a s IH]; [done|]. cbn [filterChars].
  destruct (keep a) eqn:Ha; [|done]. cbn [countChar]. rewrite IH.
  destruct (Ascii.eqb_spec a x) as [->|]; [congruence|done].
Qed.

Lemma countChar_clean x raw :
  x = "|"%char ∨ x = "-"%char → countChar x (clean raw) = 0.
Proof.
  intros Hx. unfold clean, trim.
  pose proof (countChar_trimEnd x
                (trimStart (filterChars
                   (λ c, negb (Ascii.eqb c "|" || Ascii.eqb c "-")) raw))).
  pose proof (countChar_trimStart x
                (filterChars
                   (λ c, negb (Ascii.eqb c "|" || Ascii.eqb c "-")) raw)).
  rewrite countChar_filterChars in *; [lia|]. by destruct Hx as [->| ->].
Qed.

Lemma clean_trimmed raw : trim (clean raw) = clean raw.
Proof. apply trim_idem. Qed.

End TrimFacts.

(** ** What the tree builder emits *)

Section Emitted.
Import ParserSpec.

(** X3. The row loop emits one node per row that has at least three cells
    and a decimal digit in its first cell, in row order, and nothing for any
    other row; the node's field number is the trimmed first cell. *)
Theorem buildTree_emits definitions rows :
  map fieldNo (buildTree definitions rows)
  = map firstCellTrimmed (List.filter emits rows).
Proof. unfold buildTree. by rewrite fold_processRow_fieldNo. Qed.

Lemma buildTree_origin definitions rows n :
  n ∈ buildTree definitions rows →
  ∃ tr, tr ∈ rows ∧ FromRow definitions tr n.
Proof.
  intros Hn. apply fold_processRow_origin in Hn as [Hn|Hn]; [|done].
  cbn in Hn. by apply elem_of_nil in Hn.
Qed.

Lemma toNumber_exact n : (n ≤ 2 ^ 53)%N → toNumber n = n.
Proof.
  intros Hle. destruct (N.eq_dec n (2 ^ 53)%N) as [->|Hne];
    [vm_compute; reflexivity|].
  assert (n < 2 ^ 53)%N as Hlt by lia.
  assert (N.size n ≤ 53)%N as Hsize.
  { destruct (N.eq_dec n 0%N) as [->|Hnz]; [vm_compute; discriminate|].
    rewrite N.size_log2 by done. apply N.le_succ_l.
    apply N.log2_lt_pow2; lia. }
  unfold toNumber. by rewrite (proj2 (N.leb_le _ _) Hsize).
Qed.

Lemma parseInt_value s v :
  parseInt s = Some v → v = toNumber (parseDigits 0 s).
Proof.
  destruct s as [|c s]; [done|]. cbn [parseInt].
  destruct (isDigit c); [|done]. by intros [= <-].
Qed.

(** X4. Every emitted node's id is the Number that [parseInt] returns for
    the digits of its field number; it is the number those digits spell
    when that number is at most 2^53.  Its field number and name carry no
    surrounding white space, and its name holds neither [|] nor [-]. *)
Theorem emitted_node_fields definitions rows n :
  n ∈ buildTree definitions rows →
  parseInt (filterChars isDigit (fieldNo n)) = Some (id n)
  ∧ ((parseDigits 0 (filterChars isDigit (fieldNo n)) ≤ 2 ^ 53)%N →
     id n = parseDigits 0 (filterChars isDigit (fieldNo n)))
  ∧ trim (fieldNo n) = fieldNo n
  ∧ trim (name n) = name n
  ∧ countChar "|" (name n) = 0
  ∧ countChar "-" (name n) = 0.
Proof.
  intros (tr & _ & c0 & c1 & c2 & more & _ & Hf & Hid & _ & Hname & _)
    %buildTree_origin.
  rewrite Hf, Hname. split; [done|].
  pose proof (parseInt_value _ _ Hid) as Hval.
  split; [intros Hle; by rewrite Hval, toNumber_exact|].
  split; [apply trim_idem|].
  unfold nameOfCells.
  destruct (isEmpty (clean (mapChars nbspToSpace c2))), more;
    (split; [apply clean_trimmed|]);
    split; apply countChar_clean; auto.
Qed.

Lemma emitted_node_fields_witness :
  mkNode 7 0 "7" 1 "Name" "" ∈ buildTree ∅ [shiftedRow] ∧
  parseInt (filterChars isDigit "7") = Some 7%N
  ∧ ((parseDigits 0 (filterChars isDigit "7") ≤ 2 ^ 53)%N →
     7%N = parseDigits 0 (filterChars isDigit "7"))
  ∧ trim "7" = "7"
  ∧ trim "Name" = "Name"
  ∧ countChar "|" "Name" = 0
  ∧ countChar "-" "Name" = 0.
Proof.
  split; [left|].
  refine (emitted_node_fields ∅ [shiftedRow] (mkNode 7 0 "7" 1 "Name" "") _).
  left.
Defined.

(** A field number beyond 2^53 does not keep its value: the id of the node
    is the neighbouring double. *)
Lemma large_field_number_is_rounded :
  buildTree ∅ [MoreExamples.largeIdRow]
  = [mkNode 9007199254740992 0 "9007199254740993" 0 "Big" ""]
  ∧ parseDigits 0 "9007199254740993" = 9007199254740993%N.
Proof. split; vm_compute; reflexivity. Qed.

(** Ties go to the even significand, and a number of 310 digits is
    [Infinity]. *)
Lemma toNumber_examples :
  toNumber 9007199254740995 = 9007199254740996%N
  ∧ toNumber 12345678901234567890 = 12345678901234567168%N
  ∧ toNumber (10 ^ 309) = infinity
  ∧ toNumber (10 ^ 400) = infinity.
Proof. split_and!; vm_compute; reflexivity. Qed.

(** X5. The parent of an emitted node is the most recently emitted earlier
    node whose level is one less; it is [0] for a node of level 0 and for a
    node without any earlier node one level up. *)
Theorem parent_is_last_shallower definitions rows k n :
  buildTree definitions rows !! k = Some n →
  parentId n
  = expectedParent (take k (buildTree definitions rows)) (level n).
Proof.
  unfold buildTree.
  destruct (fold_processRow_levelInv definitions rows initialRowState
              initialRowState_levelInv) as (_ & _ & Hpar).
  apply Hpar.
Qed.

Lemma parent_is_last_shallower_witness :
  buildTree ∅ (concat twoChoiceDoc) !! 4
  = Some (mkNode 5 4 "5" 2 "ProcessControl" "") ∧
  4%N = expectedParent (take 4 (buildTree ∅ (concat twoChoiceDoc))) 2.
Proof.
  split; [reflexivity|].
  exact (parent_is_last_shallower ∅ (concat twoChoiceDoc) 4
           (mkNode 5 4 "5" 2 "ProcessControl" "") eq_refl).
Defined.

End Emitted.

(** ** The definition dictionary *)

Section Dictionary.
Import ParserSpec MoreExamples.

Lemma defRow_inv defs tr : DictInv defs → DictInv (defRow defs tr).
Proof.
  intros Hinv. unfold defRow.
  destruct (tds tr) as [|c0 [|c1 rest]]; try done.
  destruct (negb (isEmpty (trim c0))
            && negb (String.eqb (toLowerCase (trim c0)) "name")) eqn:Hc;
    [|done].
  apply andb_true_iff in Hc as [Hne Hname].
  unfold assignDef. destruct (String.eqb (trim c0) "__proto__"); [done|].
  intros key d Hk. destruct (decide (key = trim c0)) as [->|Hkey].
  - rewrite lookup_insert_eq in Hk. injection Hk as <-.
    split_and!.
    + by destruct (trim c0).
    + apply trim_idem.
    + apply negb_true_iff in Hname. by apply String.eqb_neq in Hname.
    + by destruct (isUnformatted (trim c1)) eqn:Hu.
    + destruct (isUnformatted (trim c1)); [done|apply trim_idem].
  - rewrite lookup_insert_ne in Hk by done. by apply Hinv.
Qed.

Lemma extractDefinitions_inv doc : DictInv (extractDefinitions doc).
Proof.
  unfold extractDefinitions.
  assert (∀ rows defs, DictInv defs → DictInv (fold_left defRow rows defs))
    as Hrows.
  { induction rows as [|tr rows IH]; intros defs Hd; [done|].
    cbn [fold_left]. by apply IH, defRow_inv. }
  assert (∀ tables defs, DictInv defs → DictInv (fold_left defTable tables defs))
    as Htables.
  { induction tables as [|t tables IH]; intros defs Hd; [done|].
    cbn [fold_left]. apply IH. unfold defTable.
    destruct (isDefTable t); [by apply Hrows|done]. }
  apply Htables. intros key d Hk. by rewrite lookup_empty in Hk.
Qed.

(** X6. Every key of the dictionary is a non-empty, trimmed name other than
    [name] in any letter case; every stored description is trimmed and is
    never the placeholder [Unformatted text]. *)
Theorem dictionary_entries doc key d :
  extractDefinitions doc !! key = Some d →
  key ≠ "" ∧ trim key = key ∧ toLowerCase key ≠ "name"
  ∧ isUnformatted d = false ∧ trim d = d.
Proof. apply extractDefinitions_inv. Qed.

Lemma dictionary_entries_witness :
  extractDefinitions describedDoc !! "a.b.c" = Some "" ∧
  "a.b.c" ≠ "" ∧ trim "a.b.c" = "a.b.c" ∧ toLowerCase "a.b.c" ≠ "name"
  ∧ isUnformatted "" = false ∧ trim "" = "".
Proof.
  split; [vm_compute; reflexivity|].
  refine (dictionary_entries describedDoc "a.b.c" "" _).
  vm_compute. reflexivity.
Defined.

Lemma assignDef_proto (defs : gmap string string) name def :
  defs !! "__proto__" = None → assignDef defs name def !! "__proto__" = None.
Proof.
  intros Hd. unfold assignDef.
  destruct (String.eqb_spec name "__proto__") as [->|Hne]; [done|].
  by rewrite lookup_insert_ne.
Qed.

Lemma defRow_proto defs tr :
  defs !! "__proto__" = None → defRow defs tr !! "__proto__" = None.
Proof.
  intros Hd. unfold defRow. destruct (tds tr) as [|c0 [|c1 rest]]; try done.
  destruct (negb _ && negb _); [by apply assignDef_proto|done].
Qed.

(** No row makes [__proto__] an own property of the dictionary. *)
Lemma extractDefinitions_proto doc :
  extractDefinitions doc !! "__proto__" = None.
Proof.
  unfold extractDefinitions.
  assert (∀ rows (defs : gmap string string), defs !! "__proto__" = None →
            fold_left defRow rows defs !! "__proto__" = None) as Hrows.
  { induction rows as [|tr rows IH]; intros defs Hd; [done|].
    cbn [fold_left]. by apply IH, defRow_proto. }
  assert (∀ tables (defs : gmap string string), defs !! "__proto__" = None →
            fold_left defTable tables defs !! "__proto__" = None) as Htables.
  { induction tables as [|t tables IH]; intros defs Hd; [done|].
    cbn [fold_left]. apply IH. unfold defTable.
    destruct (isDefTable t); [by apply Hrows|done]. }
  by apply Htables.
Qed.

Lemma truthyDef_cases (defs : gmap string string) key v :
  truthyDef defs key = Some v →
  (∃ d, v = Str d ∧ defs !! key = Some d ∧ d ≠ "")
  ∨ (v = Inherited key ∧ defs !! key = None ∧ isInherited key = true).
Proof.
  unfold truthyDef, readDef. destruct (defs !! key) as [d|].
  - destruct d as [|a d]; [done|]. intros [= <-]. left. by eexists.
  - destruct (isInherited key) eqn:Hk; [|done]. intros [= <-]. by right.
Qed.

Lemma truthyDef_empty key :
  truthyDef ∅ key = if isInherited key then Some (Inherited key) else None.
Proof.
  unfold truthyDef, readDef. rewrite lookup_empty.
  by destruct (isInherited key).
Qed.

Lemma describe_source (defs : gmap string string) cleanName :
  describe defs cleanName = Str ""
  ∨ (∃ key d, defs !! key = Some d ∧ d ≠ ""
              ∧ describe defs cleanName = Str d)
  ∨ (∃ key, defs !! key = None ∧ isInherited key = true
            ∧ describe defs cleanName = Inherited key).
Proof.
  assert (∀ key v, truthyDef defs key = Some v →
            (∃ key d, defs !! key = Some d ∧ d ≠ "" ∧ v = Str d)
            ∨ (∃ key, defs !! key = None ∧ isInherited key = true
                      ∧ v = Inherited key)) as Hhit.
  { intros key v [(d & -> & Hd & Hne)|(-> & Hd & Hk)]%truthyDef_cases;
      [left|right]; eauto. }
  unfold describe.
  destruct (truthyDef defs cleanName) as [v|] eqn:H1; [right; eauto|].
  destruct (split "." cleanName !! 0) as [p0|]; cbn [mbind option_bind].
  - destruct (truthyDef defs p0) as [v|] eqn:H2; [right; eauto|].
    destruct (split "." cleanName !! 1) as [p1|]; cbn [mbind option_bind];
      [|by left].
    destruct (truthyDef defs p1) as [v|] eqn:H3; [right; eauto|by left].
  - destruct (split "." cleanName !! 1) as [p1|]; cbn [mbind option_bind];
      [|by left].
    destruct (truthyDef defs p1) as [v|] eqn:H3; [right; eauto|by left].
Qed.

(** X7. The description of every emitted node is the empty string, or a
    non-empty description stored in the dictionary, which is never the
    placeholder [Unformatted text], or a member inherited from
    [Object.prototype] under a key for which the dictionary stores
    nothing. *)
Theorem description_from_dictionary doc nodes n :
  parseRosettaNetHtml doc = Returns nodes →
  n ∈ nodes →
  description n = Str ""
  ∨ (∃ key d, extractDefinitions doc !! key = Some d
              ∧ description n = Str d
              ∧ d ≠ "" ∧ isUnformatted d = false)
  ∨ (∃ key, extractDefinitions doc !! key = None
            ∧ isInherited key = true
            ∧ description n = Inherited key).
Proof.
  unfold parseRosettaNetHtml. destruct (selectMainTable doc); [|done].
  intros [= <-] Hn. apply buildTree_described in Hn. rewrite Hn.
  destruct (describe_source (extractDefinitions doc) (name n))
    as [->|[(key & d & Hkey & Hne & ->)|(key & Hkey & Hin & ->)]].
  - by left.
  - right; left. exists key, d. split_and!; try done.
    by apply extractDefinitions_inv in Hkey as (_&_&_&?&_).
  - right; right. by exists key.
Qed.

Lemma description_from_dictionary_witness :
  parseRosettaNetHtml describedDoc = Returns describedTree ∧
  mkNode 1 0 "1" 0 "a.b.c" "second" ∈ describedTree ∧
  (Str "second" = Str ""
   ∨ (∃ key d, extractDefinitions describedDoc !! key = Some d
               ∧ Str "second" = Str d
               ∧ d ≠ "" ∧ isUnformatted d = false)
   ∨ (∃ key, extractDefinitions describedDoc !! key = None
             ∧ isInherited key = true
             ∧ Str "second" = Inherited key)).
Proof.
  split; [vm_compute; reflexivity|]. split; [left|].
  refine (description_from_dictionary describedDoc describedTree
            (mkNode 1 0 "1" 0 "a.b.c" "second") _ _);
    [vm_compute; reflexivity | left].
Defined.

Lemma extractDefinitions_no_defTable doc :
  (∀ t, t ∈ doc → isDefTable t = false) → extractDefinitions doc = ∅.
Proof.
  unfold extractDefinitions. generalize (∅ : gmap string string).
  induction doc as [|t doc IH]; intros defs Hno; [done|].
  cbn [fold_left]. unfold defTable at 2. rewrite (Hno t) by left.
  apply IH. intros u Hu. apply Hno. by right.
Qed.

Lemma describe_empty cleanName :
  describe ∅ cleanName
  = match inheritedKey cleanName with
    | Some key => Inherited key
    | None => Str ""
    end.
Proof.
  unfold describe, inheritedKey. rewrite truthyDef_empty.
  cbn [List.find]. destruct (isInherited cleanName); [done|].
  destruct (split "." cleanName) as [|p0 [|p1 parts]];
    cbn [lookup list_lookup mbind option_bind take List.find];
    rewrite ?truthyDef_empty; [done| |].
  - by destruct (isInherited p0).
  - destruct (isInherited p0); [done|]. by destruct (isInherited p1).
Qed.

(** X8. In a document none of whose tables has a row mentioning both
    [name] and [definition], the description of an emitted node is the
    empty string, unless its name, or the first or the second
    dot-separated part of its name, names a member of [Object.prototype]:
    then it is that member, for the first such key in this order. *)
Theorem no_definition_table_no_description doc nodes n :
  (∀ t, t ∈ doc → isDefTable t = false) →
  parseRosettaNetHtml doc = Returns nodes →
  n ∈ nodes →
  description n
  = match inheritedKey (name n) with
    | Some key => Inherited key
    | None => Str ""
    end.
Proof.
  intros Hno. unfold parseRosettaNetHtml.
  destruct (selectMainTable doc); [|done].
  intros [= <-] Hn. apply buildTree_described in Hn. rewrite Hn.
  rewrite extractDefinitions_no_defTable by done. apply describe_empty.
Qed.

Lemma parse_inheritedDoc :
  parseRosettaNetHtml inheritedDoc = Returns inheritedTree.
Proof. vm_compute. reflexivity. Qed.

Lemma no_definition_table_no_description_witness :
  (∀ t, t ∈ inheritedDoc → isDefTable t = false) ∧
  parseRosettaNetHtml inheritedDoc = Returns inheritedTree ∧
  mkNode 2 1 "2" 1 "toString.Type" (Inherited "toString") ∈ inheritedTree ∧
  Inherited "toString"
  = match inheritedKey "toString.Type" with
    | Some key => Inherited key
    | None => Str ""
    end.
Proof.
  assert (∀ t, t ∈ inheritedDoc → isDefTable t = false) as Hno.
  { intros t Ht. apply list_elem_of_singleton in Ht as ->.
    vm_compute. reflexivity. }
  split; [exact Hno|]. split; [vm_compute; reflexivity|].
  split; [right; left|].
  refine (no_definition_table_no_description inheritedDoc inheritedTree
            (mkNode 2 1 "2" 1 "toString.Type" (Inherited "toString"))
            Hno _ _);
    [vm_compute; reflexivity | right; left].
Defined.

End Dictionary.

(** ** Choice of the main table *)

Section MainTable.
Import ParserSpec MoreExamples.

Lemma scoreStep_inv tables st t :
  ScoreInv tables st → ScoreInv (tables ++ [t]) (scoreStep st t).
Proof.
  destruct st as [best score]. unfold ScoreInv, scoreStep. cbn [fst snd].
  intros Hinv. destruct (Nat.ltb_spec 5 (length t)) as [Hlen|Hlen].
  - destruct (Nat.ltb_spec score (treeScore t)) as [Hbetter|Hworse];
      cbn [fst snd].
    + exists tables, []. split_and!; try done; try lia.
      * intros u Hu Hul. destruct best as [m|].
        -- destruct Hinv as (pre & post & -> & _ & Hm & _ & Hpre & Hpost).
           apply elem_of_app in Hu as [Hu|Hu]; [specialize (Hpre u Hu Hul); lia|].
           apply elem_of_cons in Hu as [->|Hu]; [lia|].
           specialize (Hpost u Hu Hul). lia.
        -- destruct Hinv as [-> Hzero]. rewrite (Hzero u Hu Hul). lia.
      * intros u Hu. by apply elem_of_nil in Hu.
    + destruct best as [m|].
      * destruct Hinv as (pre & post & -> & ? & ? & ? & Hpre & Hpost).
        exists pre, (post ++ [t]). split_and!; try done.
        -- by rewrite <- app_assoc.
        -- intros u [Hu|Hu]%elem_of_app Hul; [by apply Hpost|].
           apply list_elem_of_singleton in Hu as ->. lia.
      * destruct Hinv as [-> Hzero]. split; [done|].
        intros u [Hu|Hu]%elem_of_app Hul; [by apply Hzero|].
        apply list_elem_of_singleton in Hu as ->. lia.
  - destruct best as [m|].
    + destruct Hinv as (pre & post & -> & ? & ? & ? & Hpre & Hpost).
      exists pre, (post ++ [t]). split_and!; try done.
      * by rewrite <- app_assoc.
      * intros u [Hu|Hu]%elem_of_app Hul; [by apply Hpost|].
        apply list_elem_of_singleton in Hu as ->. lia.
    + destruct Hinv as [-> Hzero]. split; [done|].
      intros u [Hu|Hu]%elem_of_app Hul; [by apply Hzero|].
      apply list_elem_of_singleton in Hu as ->. lia.
Qed.

Lemma fold_scoreStep_inv tables :
  ScoreInv tables (fold_left scoreStep tables (None, 0)).
Proof.
  induction tables as [|t tables IH] using rev_ind.
  - split; [done|]. intros t Ht. by apply elem_of_nil in Ht.
  - rewrite fold_left_app. cbn [fold_left]. by apply scoreStep_inv.
Qed.

(** X9. When some table with more than five rows has a row holding the
    marker [|--], the main table is the first table that, among the tables
    with more than five rows, has the most marker rows; shorter tables are
    passed over whatever they hold. *)
Theorem main_table_by_marker doc :
  (∃ t, t ∈ doc ∧ 5 < length t ∧ 0 < treeScore t) →
  ∃ pre m post,
    doc = pre ++ m :: post ∧ selectMainTable doc = Some m
    ∧ 5 < length m ∧ 0 < treeScore m
    ∧ (∀ t, t ∈ pre → 5 < length t → treeScore t < treeScore m)
    ∧ (∀ t, t ∈ post → 5 < length t → treeScore t ≤ treeScore m).
Proof.
  intros (t & Ht & Hlen & Hscore).
  pose proof (fold_scoreStep_inv doc) as Hinv.
  unfold selectMainTable, ScoreInv in *.
  destruct (fold_left scoreStep doc (None, 0)) as [[m|] score]; cbn [fst snd] in *.
  - destruct Hinv as (pre & post & -> & ? & <- & ? & Hpre & Hpost).
    by exists pre, m, post.
  - destruct Hinv as [_ Hzero]. specialize (Hzero t Ht Hlen). lia.
Qed.

Lemma main_table_by_marker_witness :
  (∃ t, t ∈ markedDoc ∧ 5 < length t ∧ 0 < treeScore t) ∧
  ∃ pre m post,
    markedDoc = pre ++ m :: post ∧ selectMainTable markedDoc = Some m
    ∧ 5 < length m ∧ 0 < treeScore m
    ∧ (∀ t, t ∈ pre → 5 < length t → treeScore t < treeScore m)
    ∧ (∀ t, t ∈ post → 5 < length t → treeScore t ≤ treeScore m).
Proof.
  assert (∃ t, t ∈ markedDoc ∧ 5 < length t ∧ 0 < treeScore t) as Hex.
  { exists markedMain. split; [right; left|]. split; vm_compute; lia. }
  split; [exact Hex|]. exact (main_table_by_marker markedDoc Hex).
Defined.

Lemma selectMainTable_markedDoc : selectMainTable markedDoc = Some markedMain.
Proof. vm_compute. reflexivity. Qed.

Lemma largestTable_first_longest tables :
  tables ≠ [] →
  ∃ pre m post,
    tables = pre ++ m :: post ∧ largestTable tables = Some m
    ∧ (∀ t, t ∈ pre → length t < length m)
    ∧ (∀ t, t ∈ post → length t ≤ length m).
Proof.
  induction tables as [|t ts IH]; [done|]. intros _.
  cbn [largestTable]. destruct ts as [|t' ts'].
  - exists [], t, []. cbn. split_and!; try done;
      intros u Hu; by apply elem_of_nil in Hu.
  - destruct IH as (pre & m & post & Heq & -> & Hpre & Hpost); [done|].
    rewrite Heq. destruct (Nat.ltb_spec (length t) (length m)) as [Hlt|Hge].
    + exists (t :: pre), m, post. split_and!; try done.
      intros u [->|Hu]%elem_of_cons; [done|by apply Hpre].
    + exists [], t, (pre ++ m :: post). split_and!; try done.
      * intros u Hu. by apply elem_of_nil in Hu.
      * intros u [Hu|Hu]%elem_of_app.
        -- specialize (Hpre u Hu). lia.
        -- apply elem_of_cons in Hu as [->|Hu]; [lia|].
           specialize (Hpost u Hu). lia.
Qed.

(** X10. When no table with more than five rows holds the marker, the main
    table is the first of the tables with the most rows, whatever their
    content. *)
Theorem main_table_fallback doc :
  doc ≠ [] →
  (∀ t, t ∈ doc → 5 < length t → treeScore t = 0) →
  ∃ pre m post,
    doc = pre ++ m :: post ∧ selectMainTable doc = Some m
    ∧ (∀ t, t ∈ pre → length t < length m)
    ∧ (∀ t, t ∈ post → length t ≤ length m).
Proof.
  intros Hne Hzero.
  pose proof (fold_scoreStep_inv doc) as Hinv.
  unfold selectMainTable, ScoreInv in *.
  destruct (fold_left scoreStep doc (None, 0)) as [[m|] score]; cbn [fst snd] in *.
  - destruct Hinv as (pre & post & -> & Hlen & Hscore & Hpos & _).
    rewrite Hzero in Hscore; [lia| |done].
    apply elem_of_app. right. left.
  - by apply largestTable_first_longest.
Qed.

Lemma main_table_fallback_witness :
  describedDoc ≠ [] ∧
  (∀ t, t ∈ describedDoc → 5 < length t → treeScore t = 0) ∧
  ∃ pre m post,
    describedDoc = pre ++ m :: post ∧ selectMainTable describedDoc = Some m
    ∧ (∀ t, t ∈ pre → length t < length m)
    ∧ (∀ t, t ∈ post → length t ≤ length m).
Proof.
  assert (∀ t, t ∈ describedDoc → 5 < length t → treeScore t = 0) as Hzero.
  { intros t Ht Hlen. exfalso.
    apply elem_of_cons in Ht as [->|Ht]; [cbn in Hlen; lia|].
    apply list_elem_of_singleton in Ht as ->. cbn in Hlen. lia. }
  split; [discriminate|]. split; [exact Hzero|].
  exact (main_table_fallback describedDoc ltac:(discriminate) Hzero).
Defined.

End MainTable.

(** ** Expansion state and projection *)

Section Expansion.
Import AppSpec.

Lemma toggle_set_twice (x : N) (e : gset N) :
  (if bool_decide (x ∈ (if bool_decide (x ∈ e) then e ∖ {[x]} else {[x]} ∪ e))
   then (if bool_decide (x ∈ e) then e ∖ {[x]} else {[x]} ∪ e) ∖ {[x]}
   else {[x]} ∪ (if bool_decide (x ∈ e) then e ∖ {[x]} else {[x]} ∪ e))
  = e.
Proof.
  destruct (bool_decide_reflect (x ∈ e)) as [Hin|Hout].
  - rewrite bool_decide_eq_false_2
      by (rewrite elem_of_difference, elem_of_singleton; tauto).
    apply set_eq. intros y.
    rewrite elem_of_union, elem_of_difference, elem_of_singleton.
    destruct (decide (y = x)) as [->|]; tauto.
  - rewrite bool_decide_eq_true_2
      by (rewrite elem_of_union, elem_of_singleton; tauto).
    apply set_eq. intros y.
    rewrite elem_of_difference, elem_of_union, elem_of_singleton.
    destruct (decide (y = x)) as [->|]; tauto.
Qed.

(** X11. Toggling the same node twice restores the state. *)
Theorem toggleNode_twice x st : toggleNode x (toggleNode x st) = st.
Proof.
  destruct st as [d e t h m]. unfold toggleNode. cbn [expandedIds].
  pose proof (toggle_set_twice x e) as Htw.
  destruct (bool_decide (x ∈ e)); cbn [expandedIds setExpandedIds data
    searchTerm highlightedIds searchMode] in *;
    match goal with
    | |- context [bool_decide ?P] => destruct (bool_decide P)
    end; cbn [expandedIds setExpandedIds data searchTerm highlightedIds
              searchMode]; by rewrite Htw.
Qed.

Lemma filterOpt_ext {A} (f g : A → option bool) (l : list A) :
  (∀ x, x ∈ l → f x = g x) → filterOpt f l = filterOpt g l.
Proof.
  induction l as [|x l IH]; intros Hfg; [done|]. cbn [filterOpt].
  rewrite (Hfg x) by left. rewrite IH; [done|].
  intros y Hy. apply Hfg. by right.
Qed.

Lemma filterOpt_sublist {A} (f : A → option bool) (l r : list A) :
  filterOpt f l = Some r →
  r `sublist_of` l ∧ ∀ x, x ∈ l → f x = Some true → x ∈ r.
Proof.
  revert r. induction l as [|x l IH]; intros r Hr.
  - injection Hr as <-. split; [done|]. intros x Hx. by apply elem_of_nil in Hx.
  - cbn [filterOpt] in Hr. destruct (f x) as [b|] eqn:Hfx; [|done].
    destruct (filterOpt f l) as [r'|]; [|done]. injection Hr as <-.
    destruct (IH r' eq_refl) as [Hsub Hall]. split.
    + destruct b; [by apply sublist_skip|by apply sublist_cons].
    + intros y [->|Hy]%elem_of_cons Hfy.
      * rewrite Hfx in Hfy. injection Hfy as ->. left.
      * specialize (Hall y Hy Hfy). destruct b; [by right|done].
Qed.

Lemma filterOpt_spec {A} (f : A → option bool) (P : A → Prop) (l : list A) :
  (∀ x, x ∈ l → ∃ b, f x = Some b ∧ (b = true ↔ P x)) →
  ∃ r, filterOpt f l = Some r ∧ r `sublist_of` l
       ∧ ∀ x, x ∈ r ↔ x ∈ l ∧ P x.
Proof.
  induction l as [|x l IH]; intros Hf.
  - exists []. split_and!; [done|done|]. intros x. split; [|by intros [? _]].
    intros Hx. by apply elem_of_nil in Hx.
  - destruct IH as (r & Hr & Hsub & Hspec).
    { intros y Hy. apply Hf. by right. }
    destruct (Hf x) as (b & Hfx & Hb); [left|].
    cbn [filterOpt]. rewrite Hfx, Hr. eexists. split; [done|].
    destruct b.
    + split; [by apply sublist_skip|]. intros y.
      rewrite !elem_of_cons, Hspec. split.
      * intros [->|[? ?]]; [|by auto]. split; [by left|by apply Hb].
      * intros [[->|?] ?]; [by left|by right].
    + split; [by apply sublist_cons|]. intros y.
      rewrite elem_of_cons, Hspec. split; [by intros [? ?]; auto|].
      intros [[->|?] HP]; [|done]. by apply Hb in HP.
Qed.

(** X12. Whatever the expanded set, a projection that returns is a
    subsequence of the node list, in the same order, and holds every node
    whose [parentId] is [0]. *)
Theorem projection_keeps_order_and_roots fuel data expanded l :
  visibleItems fuel data expanded = Some l →
  l `sublist_of` data ∧ ∀ x, x ∈ data → parentId x = 0%N → x ∈ l.
Proof.
  unfold visibleItems. destruct data as [|d data'] eqn:Hdata.
  - intros [= <-]. split; [done|]. intros x Hx. by apply elem_of_nil in Hx.
  - rewrite <- Hdata. intros [Hsub Hall]%filterOpt_sublist.
    split; [done|]. intros x Hx Hroot. apply Hall; [done|].
    unfold isVisible. by rewrite Hroot.
Qed.

Lemma projection_keeps_order_and_roots_witness :
  visibleItems 3 roundTripTree {[ 2%N ]}
  = Some [mkNode 1 0 "1" 0 "Pip3A4.Root" ""] ∧
  [mkNode 1 0 "1" 0 "Pip3A4.Root" ""] `sublist_of` roundTripTree ∧
  ∀ x, x ∈ roundTripTree → parentId x = 0%N →
       x ∈ [mkNode 1 0 "1" 0 "Pip3A4.Root" ""].
Proof.
  split; [vm_compute; reflexivity|].
  refine (projection_keeps_order_and_roots 3 roundTripTree {[ 2%N ]} _ _).
  vm_compute. reflexivity.
Defined.

Lemma insert_ids_elem (data : list Node) (m : gmap N Node) k p :
  fold_left (λ acc d, <[id d := d]> acc) data m !! k = Some p →
  (p ∈ data ∧ id p = k) ∨ m !! k = Some p.
Proof.
  revert m. induction data as [|d data IH]; intros m Hk; [by right|].
  cbn [fold_left] in Hk. apply IH in Hk as [[? ?]|Hk].
  - left. split; [by right|done].
  - destruct (decide (id d = k)) as [<-|Hne].
    + rewrite lookup_insert_eq in Hk. injection Hk as <-. left.
      split; [left|done].
    + rewrite lookup_insert_ne in Hk by done. by right.
Qed.

Lemma mkIdMap_elem data k p :
  mkIdMap data !! k = Some p → p ∈ data ∧ id p = k.
Proof.
  intros [?|Hk]%insert_ids_elem; [done|]. by rewrite lookup_empty in Hk.
Qed.

(** The walk only ever asks about ids that are the [parentId] of a node. *)
Lemma ancestorsExpanded_agree data e e' fuel c :
  (∀ x, x ∈ data → (parentId x ∈ e ↔ parentId x ∈ e')) →
  (∃ x, x ∈ data ∧ parentId x = c) →
  ancestorsExpanded fuel (mkIdMap data) e c
  = ancestorsExpanded fuel (mkIdMap data) e' c.
Proof.
  intros Hagree. revert c.
  induction fuel as [|fuel IH]; intros c (x & Hx & Hc); [done|].
  cbn [ancestorsExpanded]. destruct (c =? 0)%N; [done|].
  rewrite (bool_decide_ext (c ∈ e) (c ∈ e')) by (subst c; by apply Hagree).
  destruct (bool_decide (c ∈ e')); [|done]. cbn [negb].
  destruct (mkIdMap data !! c) as [parent|] eqn:Hpar; [|done].
  apply IH. exists parent. by apply mkIdMap_elem in Hpar as [? _].
Qed.

(** X13. Toggling a node that has no child leaves the projection as it
    is. *)
Theorem toggle_leaf_keeps_projection fuel leaf st :
  (∀ x, x ∈ data st → parentId x ≠ leaf) →
  visibleItems fuel (data st) (expandedIds (toggleNode leaf st))
  = visibleItems fuel (data st) (expandedIds st).
Proof.
  intros Hleaf. unfold visibleItems. destruct (data st) as [|d l] eqn:Hdata;
    [done|]. rewrite <- Hdata in *.
  apply filterOpt_ext. intros x Hx. unfold isVisible.
  destruct (parentId x =? 0)%N; [done|].
  apply ancestorsExpanded_agree; [|by exists x].
  intros y Hy. specialize (Hleaf y Hy). unfold toggleNode.
  destruct (bool_decide (leaf ∈ expandedIds st));
    cbn [expandedIds setExpandedIds];
    rewrite ?elem_of_difference, ?elem_of_union, ?elem_of_singleton; tauto.
Qed.

Lemma toggle_leaf_keeps_projection_witness :
  (∀ x, x ∈ roundTripTree → parentId x ≠ 3%N) ∧
  visibleItems 3 roundTripTree
    (expandedIds (toggleNode 3 (mkState roundTripTree {[ 1%N ]} "" ∅ keyword)))
  = visibleItems 3 roundTripTree {[ 1%N ]}.
Proof.
  assert (∀ x, x ∈ roundTripTree → parentId x ≠ 3%N) as Hleaf.
  { intros x Hx.
    repeat (apply elem_of_cons in Hx as [->|Hx]; [discriminate|]).
    by apply elem_of_nil in Hx. }
  split; [exact Hleaf|].
  exact (toggle_leaf_keeps_projection 3 3
           (mkState roundTripTree {[ 1%N ]} "" ∅ keyword) Hleaf).
Defined.

End Expansion.

(** ** The projector on parsed trees with distinct ids *)

Lemma visibleItems_filterOpt fuel data expanded :
  visibleItems fuel data expanded
  = filterOpt (isVisible fuel (mkIdMap data) expanded) data.
Proof. by destruct data. Qed.

Section ProjectorSpec.
Import AppSpec.
Variable data : list Node.
Hypothesis Hback : BackLinked data.
Hypothesis Hnodup : NoDup (map id data).

Lemma id_unique p q : p ∈ data → q ∈ data → id p = id q → p = q.
Proof.
  intros Hp Hq Heq.
  pose proof (mkIdMap_unique data p Hnodup Hp) as H1.
  pose proof (mkIdMap_unique data q Hnodup Hq) as H2.
  rewrite Heq, H2 in H1. by injection H1.
Qed.

Lemma ancestorsExpanded_spec expanded fuel j c :
  (c = 0%N ∧ 1 ≤ fuel)
  ∨ (∃ p, data !! j = Some p ∧ id p = c ∧ j + 2 ≤ fuel) →
  ∃ b, ancestorsExpanded fuel (mkIdMap data) expanded c = Some b
       ∧ (b = true ↔ AncestorsIn data expanded c).
Proof.
  revert j c. induction fuel as [|fuel IH]; intros j c Hc.
  { destruct Hc as [[_ ?]|(? & _ & _ & ?)]; lia. }
  cbn [ancestorsExpanded]. destruct (N.eqb_spec c 0) as [->|Hnz].
  { exists true. split; [done|]. split; [constructor|done]. }
  destruct Hc as [[? _]|(p & Hj & Hid & Hfuel)]; [done|].
  assert (p ∈ data) as Hp by by eapply list_elem_of_lookup_2.
  destruct (bool_decide_reflect (c ∈ expanded)) as [Hin|Hout]; cbn [negb].
  - rewrite <- Hid, mkIdMap_unique by done.
    assert (∃ j0, (parentId p = 0%N ∧ 1 ≤ fuel)
                  ∨ (∃ p', data !! j0 = Some p' ∧ id p' = parentId p
                           ∧ j0 + 2 ≤ fuel)) as [j0 Hj0].
    { destruct (Hback j p Hj) as [Hroot|(j' & p' & Hlt & Hj' & Hid' & _)].
      - exists 0. left. split; [done|lia].
      - exists j'. right. exists p'. split_and!; [done|done|lia]. }
    destruct (IH j0 (parentId p) Hj0) as (b & Hb & Hspec).
    exists b. split; [done|]. rewrite Hspec. split.
    + intros Hanc. by eapply anc_step; [rewrite Hid| rewrite Hid | | |].
    + intros Hanc. inversion Hanc as [|c' q _ _ Hq Hidq Hrest]; [congruence|].
      subst c'. assert (q = p) as -> by (apply id_unique; congruence).
      done.
  - exists false. split; [done|]. split; [done|].
    intros Hanc. inversion Hanc; congruence.
Qed.

Lemma isVisible_spec expanded fuel item :
  length data ≤ fuel → item ∈ data →
  ∃ b, isVisible fuel (mkIdMap data) expanded item = Some b
       ∧ (b = true ↔ AncestorsIn data expanded (parentId item)).
Proof.
  intros Hfuel [k Hk]%list_elem_of_lookup. unfold isVisible.
  destruct (N.eqb_spec (parentId item) 0) as [Hroot|Hnz].
  { exists true. rewrite Hroot. split; [done|]. split; [constructor|done]. }
  destruct (Hback k item Hk) as [?|(j & p & Hlt & Hj & Hid & _)]; [done|].
  apply (ancestorsExpanded_spec expanded fuel j). right. exists p.
  apply lookup_lt_Some in Hk. split_and!; [done|done|lia].
Qed.

Lemma visibleItems_spec expanded fuel :
  length data ≤ fuel →
  ∃ l, visibleItems fuel data expanded = Some l
       ∧ l `sublist_of` data
       ∧ ∀ x, x ∈ l ↔ x ∈ data ∧ AncestorsIn data expanded (parentId x).
Proof.
  intros Hfuel. rewrite visibleItems_filterOpt. apply filterOpt_spec.
  intros x Hx. by apply isVisible_spec.
Qed.

End ProjectorSpec.

Lemma AncestorsIn_mono data (e e' : gset N) c :
  e ⊆ e' → AppSpec.AncestorsIn data e c → AppSpec.AncestorsIn data e' c.
Proof.
  intros Hsub Hanc. induction Hanc as [|c p Hnz Hin Hp Hid _ IH];
    [constructor|].
  eapply AppSpec.anc_step; [done| |done|done|done]. by apply Hsub.
Qed.

(** X14. On a parsed tree with pairwise distinct ids the projection returns
    for every expanded set: it is the subsequence of the nodes all of whose
    ancestors, up to the root, are expanded. *)
Theorem projection_is_expanded_ancestry doc nodes expanded fuel :
  parseRosettaNetHtml doc = Returns nodes →
  NoDup (map id nodes) →
  length nodes ≤ fuel →
  ∃ l, visibleItems fuel nodes expanded = Some l
       ∧ l `sublist_of` nodes
       ∧ ∀ x, x ∈ l ↔
              x ∈ nodes ∧ AppSpec.AncestorsIn nodes expanded (parentId x).
Proof.
  intros Hparse Hnd Hfuel. apply parse_backLinked in Hparse.
  by apply visibleItems_spec.
Qed.

Lemma roundTripTree_distinct : NoDup (map id roundTripTree).
Proof. apply (bool_decide_unpack _). vm_compute. exact I. Qed.

Lemma projection_is_expanded_ancestry_witness :
  parseRosettaNetHtml roundTripDoc = Returns roundTripTree ∧
  NoDup (map id roundTripTree) ∧
  length roundTripTree ≤ 3 ∧
  ∃ l, visibleItems 3 roundTripTree {[ 1%N ]} = Some l
       ∧ l `sublist_of` roundTripTree
       ∧ ∀ x, x ∈ l ↔
              x ∈ roundTripTree
              ∧ AppSpec.AncestorsIn roundTripTree {[ 1%N ]} (parentId x).
Proof.
  split; [vm_compute; reflexivity|].
  split; [apply (bool_decide_unpack _); vm_compute; exact I|].
  split; [vm_compute; lia|].
  refine (projection_is_expanded_ancestry roundTripDoc roundTripTree
            {[ 1%N ]} 3 _ _ _);
    [vm_compute; reflexivity
    | apply (bool_decide_unpack _); vm_compute; exact I
    | vm_compute; lia].
Defined.

(** X15. On such a tree, expanding more never hides a node: the projection
    under a larger expanded set holds every node of the projection under a
    smaller one. *)
Theorem projection_monotone doc nodes (e e' : gset N) fuel :
  parseRosettaNetHtml doc = Returns nodes →
  NoDup (map id nodes) →
  length nodes ≤ fuel →
  e ⊆ e' →
  ∃ l l', visibleItems fuel nodes e = Some l
          ∧ visibleItems fuel nodes e' = Some l'
          ∧ ∀ x, x ∈ l → x ∈ l'.
Proof.
  intros Hparse Hnd Hfuel Hsub. apply parse_backLinked in Hparse.
  destruct (visibleItems_spec nodes Hparse Hnd e fuel Hfuel)
    as (l & Hl & _ & Hspec).
  destruct (visibleItems_spec nodes Hparse Hnd e' fuel Hfuel)
    as (l' & Hl' & _ & Hspec').
  exists l, l'. split_and!; [done|done|]. intros x [Hx Hanc]%Hspec.
  apply Hspec'. split; [done|]. by eapply AncestorsIn_mono.
Qed.

Lemma projection_monotone_witness :
  parseRosettaNetHtml roundTripDoc = Returns roundTripTree ∧
  NoDup (map id roundTripTree) ∧
  length roundTripTree ≤ 3 ∧
  ({[ 1%N ]} : gset N) ⊆ {[ 1%N; 2%N ]} ∧
  ∃ l l', visibleItems 3 roundTripTree {[ 1%N ]} = Some l
          ∧ visibleItems 3 roundTripTree {[ 1%N; 2%N ]} = Some l'
          ∧ ∀ x, x ∈ l → x ∈ l'.
Proof.
  assert (({[ 1%N ]} : gset N) ⊆ {[ 1%N; 2%N ]}) as Hsub.
  { intros x Hx. apply elem_of_union. by left. }
  split; [vm_compute; reflexivity|].
  split; [apply (bool_decide_unpack _); vm_compute; exact I|].
  split; [vm_compute; lia|]. split; [exact Hsub|].
  refine (projection_monotone roundTripDoc roundTripTree
            {[ 1%N ]} {[ 1%N; 2%N ]} 3 _ _ _ Hsub);
    [vm_compute; reflexivity
    | apply (bool_decide_unpack _); vm_compute; exact I
    | vm_compute; lia].
Defined.

(** ** Search and projection together *)

Section SearchVisible.
Import AppSpec.

(** X16. On a parsed tree the search effect always returns, also when ids
    repeat: the ancestor loop of keyword mode climbs to ever earlier first
    occurrences, and path mode is bounded by the segment list. *)
Theorem searchEffect_terminates doc st fuel :
  parseRosettaNetHtml doc = Returns (data st) →
  length (data st) < fuel →
  ∃ st', searchEffect fuel st = Some st'.
Proof.
  intros Hparse Hfuel. apply parse_backLinked in Hparse.
  unfold searchEffect. destruct (data st) as [|d l] eqn:Hdata; [by eauto|].
  rewrite <- Hdata in *. destruct (isEmpty _); [by eauto|].
  destruct (isPathQuery _); [by eauto|]. unfold keywordSearch.
  cbn [data expandedIds setSearchMode].
  destruct (expandMatches_terminates (data st) Hparse fuel
              (List.filter (keywordMatch (toLowerCase (trim (searchTerm st))))
                           (data st)) (expandedIds st)) as [e He].
  { done. }
  { intros x [Hx _]%list_elem_of_In%filter_In. by apply list_elem_of_In. }
  rewrite He. by eauto.
Qed.

Lemma searchEffect_terminates_witness :
  parseRosettaNetHtml repeatedIdDoc = Returns repeatedIdTree ∧
  length repeatedIdTree < 3 ∧
  ∃ st', searchEffect 3 (mkState repeatedIdTree ∅ "b" ∅ keyword) = Some st'.
Proof.
  split; [vm_compute; reflexivity|]. split; [vm_compute; lia|].
  refine (searchEffect_terminates repeatedIdDoc
            (mkState repeatedIdTree ∅ "b" ∅ keyword) 3 _ _);
    [vm_compute; reflexivity | vm_compute; lia].
Defined.

Lemma anc_child data (e : gset N) m :
  m ∈ data → id m ∈ e → AncestorsIn data e (parentId m) →
  AncestorsIn data e (id m).
Proof.
  intros Hm Hin Hanc. destruct (decide (id m = 0%N)) as [->|Hnz];
    [constructor|]. by eapply anc_step.
Qed.

Lemma find_id_exists (data : list Node) cur :
  (∃ p, p ∈ data ∧ id p = cur) →
  ∃ parent, find (λ d, (id d =? cur)%N) data = Some parent
            ∧ parent ∈ data ∧ id parent = cur.
Proof.
  intros (p & Hp & Hid).
  destruct (find_exists (λ d, (id d =? cur)%N) data) as (q & Hq & Hin & Heq).
  { exists p. split; [done|]. by apply N.eqb_eq. }
  exists q. split_and!; [done|done|]. by apply N.eqb_eq.
Qed.

Section Chains.
Variable data : list Node.
Hypothesis Hback : BackLinked data.

Lemma parent_exists p :
  p ∈ data → parentId p = 0%N ∨ ∃ q, q ∈ data ∧ id q = parentId p.
Proof.
  intros [k Hk]%list_elem_of_lookup.
  destruct (Hback k p Hk) as [?|(j & q & _ & Hj & Hid & _)]; [by left|].
  right. exists q. split; [by eapply list_elem_of_lookup_2|done].
Qed.

(** The ancestor loop leaves the whole chain above [cur] expanded, adds
    only ids that have a child, and removes nothing. *)
Lemma addAncestors_chain fuel cur (e e' : gset N) :
  addAncestors fuel data cur e = Some e' →
  (cur = 0%N ∨ ∃ c p, c ∈ data ∧ parentId c = cur ∧ p ∈ data ∧ id p = cur) →
  e ⊆ e' ∧ e' ⊆ e ∪ allParentIds data ∧ AncestorsIn data e' cur.
Proof.
  revert cur e. induction fuel as [|fuel IH]; intros cur e Hrun Hcur; [done|].
  cbn [addAncestors] in Hrun. destruct (N.eqb_spec cur 0) as [->|Hnz].
  { injection Hrun as <-. split_and!; [done| |constructor].
    intros x Hx. apply elem_of_union. by left. }
  destruct Hcur as [?|(c & p & Hc & Hpc & Hp & Hid)]; [done|].
  destruct (find_id_exists data cur) as (parent & Hfind & Hpar & Hidp);
    [by eauto|].
  rewrite Hfind in Hrun.
  apply IH in Hrun as (Hsub & Hbound & Hanc).
  - assert (cur ∈ allParentIds data) as Hcp.
    { apply elem_of_allParentIds. by exists parent, c. }
    split_and!.
    + intros x Hx. apply Hsub, elem_of_union. by right.
    + intros x [Hx|Hx]%Hbound%elem_of_union; [|by apply elem_of_union; right].
      apply elem_of_union in Hx as [->%elem_of_singleton|Hx];
        apply elem_of_union; [by right|by left].
    + eapply anc_step; [done| |done|done|done].
      apply Hsub, elem_of_union. left. by apply elem_of_singleton.
  - destruct (parent_exists parent Hpar) as [?|(q & Hq & Hidq)]; [by left|].
    right. by exists parent, q.
Qed.

Lemma expandMatches_chain fuel matches (e e' : gset N) :
  expandMatches fuel data matches e = Some e' →
  (∀ m, m ∈ matches → m ∈ data) →
  e ⊆ e' ∧ e' ⊆ e ∪ allParentIds data
  ∧ ∀ m, m ∈ matches → AncestorsIn data e' (parentId m).
Proof.
  revert e. induction matches as [|m matches IH]; intros e Hrun Hsub.
  { injection Hrun as <-. split_and!; [done| |].
    - intros x Hx. apply elem_of_union. by left.
    - intros m Hm. by apply elem_of_nil in Hm. }
  cbn [expandMatches] in Hrun.
  destruct (addAncestors fuel data (parentId m) e) as [e1|] eqn:Hadd; [|done].
  cbn [mbind option_bind] in Hrun.
  apply addAncestors_chain in Hadd as (Hs1 & Hb1 & Hanc1).
  2:{ destruct (parent_exists m) as [?|(q & Hq & Hidq)];
        [apply Hsub; left|by left|].
      right. exists m, q. split_and!; [apply Hsub; left|done|done|done]. }
  apply IH in Hrun as (Hs2 & Hb2 & Hanc2);
    [|intros x Hx; apply Hsub; by right].
  split_and!.
  - by etrans.
  - intros x [Hx|Hx]%Hb2%elem_of_union; [by apply Hb1|].
    apply elem_of_union. by right.
  - intros x [->|Hx]%elem_of_cons; [|by apply Hanc2].
    by eapply AncestorsIn_mono.
Qed.

Lemma iteration_chain segments w w' :
  AncestorsIn data (newExpanded w) (currentParentId w) →
  iteration data segments w = Some w' →
  AncestorsIn data (newExpanded w') (currentParentId w').
Proof.
  intros Hanc Hit. unfold iteration in Hit.
  assert (∀ t parent m,
            find (nameMatches t) (childrenOf data parent) = Some m →
            m ∈ data ∧ parentId m = parent) as Hchild.
  { intros t parent m [Hm _]%find_some.
    by apply list_elem_of_In, elem_of_childrenOf in Hm. }
  assert (∀ (e : gset N) x, x ∈ list_to_set [x] ∪ e) as Hone.
  { intros e x. apply elem_of_union. left.
    by apply elem_of_list_to_set, list_elem_of_singleton. }
  destruct (compoundMatch data segments w) as [m|] eqn:Hc.
  { injection Hit as <-. unfold compoundMatch in Hc.
    repeat case_match; try done. apply Hchild in Hc as [Hm Hpm].
    cbn [descend newExpanded currentParentId].
    apply anc_child; [done|apply Hone|]. rewrite Hpm.
    eapply AncestorsIn_mono; [|done]. intros x Hx. apply elem_of_union.
    by right. }
  destruct (singleMatch data segments w) as [m|] eqn:Hs.
  { injection Hit as <-. unfold singleMatch in Hs.
    destruct (segments !! i w); [|done]. cbn in Hs.
    apply Hchild in Hs as [Hm Hpm].
    cbn [descend newExpanded currentParentId].
    apply anc_child; [done|apply Hone|]. rewrite Hpm.
    eapply AncestorsIn_mono; [|done]. intros x Hx. apply elem_of_union.
    by right. }
  destruct (choiceNode data w) as [choice|] eqn:Hch; [|done].
  destruct (matchInChoice data segments w choice) as [g|] eqn:Hg; [|done].
  injection Hit as <-. unfold choiceNode in Hch. unfold matchInChoice in Hg.
  destruct (segments !! i w); [|done]. cbn in Hg.
  apply Hchild in Hg as [Hgd Hpg].
  apply find_some in Hch as [Hcd _].
  apply list_elem_of_In, elem_of_childrenOf in Hcd as [Hcd Hpc].
  cbn [descend newExpanded currentParentId].
  apply anc_child; [done| |].
  - apply elem_of_union. left. apply elem_of_list_to_set.
    right. left.
  - rewrite Hpg. apply anc_child; [done| |].
    + apply elem_of_union. left. apply elem_of_list_to_set. left.
    + rewrite Hpc. eapply AncestorsIn_mono; [|done].
      intros x Hx. apply elem_of_union. by right.
Qed.

Lemma traverse_chain fuel segments w :
  AncestorsIn data (newExpanded w) (currentParentId w) →
  AncestorsIn data (newExpanded (traverse fuel data segments w))
              (currentParentId (traverse fuel data segments w)).
Proof.
  revert w. induction fuel as [|fuel IH]; intros w Hanc; [done|].
  cbn [traverse]. destruct (i w <? length segments); [|done].
  destruct (iteration data segments w) as [w'|] eqn:Hit; [|done].
  apply IH. by eapply iteration_chain.
Qed.

End Chains.

(** X17. On a parsed tree with pairwise distinct ids, after the search
    effect has run, every node whose id is highlighted is in the
    projection: keyword mode has expanded all its ancestors, and path mode
    has expanded the path that leads to it. *)
Theorem highlighted_nodes_are_visible doc st fuel :
  parseRosettaNetHtml doc = Returns (data st) →
  NoDup (map id (data st)) →
  length (data st) < fuel →
  ∃ st' l,
    searchEffect fuel st = Some st'
    ∧ visibleItems fuel (data st) (expandedIds st') = Some l
    ∧ ∀ item, item ∈ data st → id item ∈ highlightedIds st' → item ∈ l.
Proof.
  intros Hparse Hnd Hfuel. apply parse_backLinked in Hparse.
  destruct (decide (data st = [])) as [Hnil|Hne].
  { exists st, []. unfold searchEffect. rewrite Hnil.
    split_and!; [done|done|]. intros item Hin. by apply elem_of_nil in Hin. }
  assert (∀ st', searchEffect fuel st = Some st' →
            (∀ item, item ∈ data st → id item ∈ highlightedIds st' →
                     AncestorsIn (data st) (expandedIds st') (parentId item)) →
            ∃ st' l,
              searchEffect fuel st = Some st'
              ∧ visibleItems fuel (data st) (expandedIds st') = Some l
              ∧ ∀ item, item ∈ data st → id item ∈ highlightedIds st' →
                        item ∈ l) as Hfinish.
  { intros st' Hrun Hanc.
    destruct (visibleItems_spec (data st) Hparse Hnd (expandedIds st') fuel)
      as (l & Hl & _ & Hspec); [lia|].
    exists st', l. split_and!; [done|done|].
    intros item Hin Hhl. apply Hspec. split; [done|by apply Hanc]. }
  unfold searchEffect in *. destruct (data st) as [|d0 l0] eqn:Hdata; [done|].
  rewrite <- Hdata in *. clear Hne.
  destruct (isEmpty (trim (searchTerm st))).
  { eapply Hfinish; [done|]. intros item _ Hhl. cbn in Hhl.
    by apply not_elem_of_empty in Hhl. }
  destruct (isPathQuery (trim (searchTerm st))).
  - eapply Hfinish; [done|]. intros item Hin. unfold pathSearch.
    cbn [data setSearchMode].
    pose proof (resolvePath_inv (trim (searchTerm st)) (data st)) as Hinv.
    pose proof (traverse_chain (data st)
                  (length (pathSegments (trim (searchTerm st))))
                  (pathSegments (trim (searchTerm st))) startWalk) as Hchain.
    fold (resolvePath (trim (searchTerm st)) (data st)) in Hchain.
    specialize (Hchain ltac:(constructor)).
    unfold WalkInv in Hinv.
    destruct (matchedNodeId (resolvePath (trim (searchTerm st)) (data st)))
      as [m|]; cbn [truthyId].
    + destruct (N.eqb_spec m 0) as [->|Hnz].
      * cbn. intros Hhl. by apply not_elem_of_empty in Hhl.
      * cbn [highlightedIds expandedIds setHighlightedIds setExpandedIds].
        intros Heq%elem_of_singleton. destruct Hinv as (_ & Hcur & _).
        rewrite Hcur in Hchain.
        inversion Hchain as [|c p _ _ Hp Hid Hrest]; [congruence|].
        assert (p = item) as ->
          by (apply (id_unique (data st) Hnd); congruence).
        done.
    + cbn. intros Hhl. by apply not_elem_of_empty in Hhl.
  - unfold keywordSearch in *. cbn [data expandedIds setSearchMode] in *.
    destruct (expandMatches_terminates (data st) Hparse fuel
                (List.filter (keywordMatch (toLowerCase (trim (searchTerm st))))
                             (data st)) (expandedIds st)) as [e He].
    { done. }
    { intros x [Hx _]%list_elem_of_In%filter_In. by apply list_elem_of_In. }
    rewrite He in *. cbn [mbind option_bind] in *.
    eapply Hfinish; [done|].
    cbn [highlightedIds expandedIds setHighlightedIds setExpandedIds].
    intros item Hin (m & Hm & Hid & Hmatch)%elem_of_highlighted.
    assert (m = item) as -> by by apply (id_unique (data st) Hnd).
    apply expandMatches_chain in He as (_ & _ & Hanc); [|done|].
    + apply Hanc. apply list_elem_of_In, filter_In.
      split; [by apply list_elem_of_In|done].
    + intros x [Hx _]%list_elem_of_In%filter_In. by apply list_elem_of_In.
Qed.

Lemma highlighted_nodes_are_visible_witness :
  parseRosettaNetHtml choiceDoc = Returns choiceTree ∧
  NoDup (map id choiceTree) ∧
  length choiceTree < 4 ∧
  ∃ st' l,
    searchEffect 4 (mkState choiceTree ∅ examplePath ∅ keyword) = Some st'
    ∧ visibleItems 4 choiceTree (expandedIds st') = Some l
    ∧ ∀ item, item ∈ choiceTree → id item ∈ highlightedIds st' → item ∈ l.
Proof.
  split; [vm_compute; reflexivity|].
  split; [apply (bool_decide_unpack _); vm_compute; exact I|].
  split; [vm_compute; lia|].
  refine (highlighted_nodes_are_visible choiceDoc
            (mkState choiceTree ∅ examplePath ∅ keyword) 4 _ _ _);
    [vm_compute; reflexivity
    | apply (bool_decide_unpack _); vm_compute; exact I
    | vm_compute; lia].
Defined.

End SearchVisible.

(** ** Keyword mode: what it changes *)

Section KeywordEffect.
Import AppSpec.

(** X18. On a parsed tree keyword mode never collapses a node, and the ids
    it adds to the expanded set all have a child: they are among the ids
    that [expandAll] would expand. *)
Theorem keyword_search_extends_expansion doc st fuel :
  parseRosettaNetHtml doc = Returns (data st) →
  length (data st) < fuel →
  ∃ st',
    keywordSearch fuel (trim (searchTerm st)) st = Some st'
    ∧ expandedIds st ⊆ expandedIds st'
    ∧ expandedIds st' ⊆ expandedIds st ∪ allParentIds (data st).
Proof.
  intros Hparse Hfuel. apply parse_backLinked in Hparse.
  unfold keywordSearch. cbn [data expandedIds setSearchMode].
  destruct (expandMatches_terminates (data st) Hparse fuel
              (List.filter (keywordMatch (toLowerCase (trim (searchTerm st))))
                           (data st)) (expandedIds st)) as [e He].
  { done. }
  { intros x [Hx _]%list_elem_of_In%filter_In. by apply list_elem_of_In. }
  rewrite He. cbn [mbind option_bind]. eexists. split; [done|].
  cbn [expandedIds setExpandedIds].
  apply expandMatches_chain in He as (? & ? & _); [done|done|].
  intros x [Hx _]%list_elem_of_In%filter_In. by apply list_elem_of_In.
Qed.

Lemma keyword_search_extends_expansion_witness :
  parseRosettaNetHtml roundTripDoc = Returns roundTripTree ∧
  length roundTripTree < 4 ∧
  ∃ st',
    keywordSearch 4 (trim "control")
      (mkState roundTripTree {[ 9%N ]} "control" ∅ keyword) = Some st'
    ∧ ({[ 9%N ]} : gset N) ⊆ expandedIds st'
    ∧ expandedIds st' ⊆ {[ 9%N ]} ∪ allParentIds roundTripTree.
Proof.
  split; [vm_compute; reflexivity|]. split; [vm_compute; lia|].
  refine (keyword_search_extends_expansion roundTripDoc
            (mkState roundTripTree {[ 9%N ]} "control" ∅ keyword) 4 _ _);
    [vm_compute; reflexivity | vm_compute; lia].
Defined.

Lemma filter_none {A} (f : A → bool) (l : list A) :
  (∀ x, x ∈ l → f x = false) → List.filter f l = [].
Proof.
  induction l as [|x l IH]; intros Hf; [done|]. cbn [List.filter].
  rewrite (Hf x) by left. apply IH. intros y Hy. apply Hf. by right.
Qed.

(** X19. A keyword that matches no node empties the highlighted set and
    leaves the expanded set untouched. *)
Theorem keyword_without_match fuel trimmedTerm st :
  (∀ item, item ∈ data st →
           keywordMatch (toLowerCase trimmedTerm) item = false) →
  keywordSearch fuel trimmedTerm st
  = Some (mkState (data st) (expandedIds st) (searchTerm st) ∅ keyword).
Proof.
  intros Hnone. unfold keywordSearch. cbn [data setSearchMode].
  rewrite filter_none by done. by destruct st.
Qed.

Lemma keyword_without_match_witness :
  (∀ item, item ∈ roundTripTree →
           keywordMatch (toLowerCase "zebra") item = false) ∧
  keywordSearch 0 "zebra" (mkState roundTripTree {[ 1%N ]} "zebra" {[ 2%N ]} path)
  = Some (mkState roundTripTree {[ 1%N ]} "zebra" ∅ keyword).
Proof.
  assert (∀ item, item ∈ roundTripTree →
            keywordMatch (toLowerCase "zebra") item = false) as Hnone.
  { intros x Hx.
    repeat (apply elem_of_cons in Hx as [->|Hx]; [vm_compute; reflexivity|]).
    by apply elem_of_nil in Hx. }
  split; [exact Hnone|].
  exact (keyword_without_match 0 "zebra"
           (mkState roundTripTree {[ 1%N ]} "zebra" {[ 2%N ]} path) Hnone).
Defined.

Lemma addAncestors_union fuel data cur (e : gset N) :
  addAncestors fuel data cur e
  = (λ A, A ∪ e) <$> addAncestors fuel data cur ∅.
Proof.
  revert cur e. induction fuel as [|fuel IH]; intros cur e; [done|].
  cbn [addAncestors]. destruct (cur =? 0)%N.
  { cbn. by rewrite union_empty_l_L. }
  destruct (find _ data) as [parent|].
  - rewrite (IH _ ({[cur]} ∪ e)), (IH _ ({[cur]} ∪ ∅)).
    destruct (addAncestors fuel data (parentId parent) ∅) as [A|]; [|done].
    cbn. f_equal. rewrite union_empty_r_L. by rewrite (assoc_L (∪)).
  - cbn. by rewrite union_empty_r_L.
Qed.

Lemma expandMatches_union fuel data matches (e : gset N) :
  expandMatches fuel data matches e
  = (λ A, A ∪ e) <$> expandMatches fuel data matches ∅.
Proof.
  revert e. induction matches as [|m matches IH]; intros e.
  { cbn. by rewrite union_empty_l_L. }
  cbn [expandMatches]. rewrite (addAncestors_union _ _ _ e).
  destruct (addAncestors fuel data (parentId m) ∅) as [B|]; [|done].
  cbn [fmap option_fmap option_map mbind option_bind].
  rewrite (IH (B ∪ e)), (IH B).
  destruct (expandMatches fuel data matches ∅) as [C|]; [|done].
  cbn. f_equal. by rewrite (assoc_L (∪)).
Qed.

(** X20. The search effect is idempotent: run again on its own result,
    with the same term and tree, it returns that result unchanged. *)
Theorem searchEffect_idempotent fuel st st' :
  searchEffect fuel st = Some st' → searchEffect fuel st' = Some st'.
Proof.
  unfold searchEffect. destruct (data st) as [|d l] eqn:Hdata.
  { intros [= <-]. by rewrite Hdata. }
  destruct (isEmpty (trim (searchTerm st))) eqn:Hblank.
  { intros [= <-]. cbn [data searchTerm setSearchMode setHighlightedIds].
    rewrite Hdata, Hblank. by destruct st. }
  destruct (isPathQuery (trim (searchTerm st))) eqn:Hpath.
  - intros [= <-]. unfold pathSearch. cbn [data setSearchMode].
    destruct (truthyId (matchedNodeId
                (resolvePath (trim (searchTerm st)) (data st)))) as [m|] eqn:Hm;
      cbn [data searchTerm setHighlightedIds setExpandedIds setSearchMode];
      rewrite Hdata, Hblank, Hpath; rewrite <- Hdata; rewrite Hm;
      by destruct st.
  - unfold keywordSearch. cbn [data expandedIds setSearchMode].
    rewrite expandMatches_union.
    destruct (expandMatches fuel (data st) _ ∅) as [A|] eqn:HA; [|done].
    intros [= <-].
    cbn [data searchTerm expandedIds setHighlightedIds setExpandedIds
         setSearchMode].
    rewrite Hdata, Hblank, Hpath. rewrite <- Hdata.
    rewrite expandMatches_union, HA. cbn.
    rewrite (assoc_L (∪)), union_idemp_L. by destruct st.
Qed.

Lemma searchEffect_idempotent_witness :
  searchEffect 4 (mkState roundTripTree {[ 9%N ]} "control" ∅ path)
  = Some (mkState roundTripTree {[ 1%N; 2%N; 9%N ]} "control" {[ 3%N ]} keyword)
  ∧ searchEffect 4
      (mkState roundTripTree {[ 1%N; 2%N; 9%N ]} "control" {[ 3%N ]} keyword)
    = Some (mkState roundTripTree {[ 1%N; 2%N; 9%N ]} "control" {[ 3%N ]}
              keyword).
Proof.
  split; [vm_compute; reflexivity|].
  refine (searchEffect_idempotent 4
            (mkState roundTripTree {[ 9%N ]} "control" ∅ path) _ _).
  vm_compute. reflexivity.
Defined.

End KeywordEffect.

(** ** Path mode: segments and bounds *)

Section PathBounds.
Import AppSpec.

Lemma split_no_separator sep s p : p ∈ split sep s → countChar sep p = 0.
Proof.
  revert p. induction s as [|c s IH]; intros p Hp.
  { cbn in Hp. by apply list_elem_of_singleton in Hp as ->. }
  cbn [split] in Hp. destruct (Ascii.eqb c sep) eqn:Hc.
  - apply elem_of_cons in Hp as [->|Hp]; [done|by apply IH].
  - destruct (split sep s) as [|p0 ps].
    + apply list_elem_of_singleton in Hp as ->. cbn. by rewrite Hc.
    + apply elem_of_cons in Hp as [->|Hp].
      * cbn [countChar]. rewrite Hc. cbn. apply IH. left.
      * apply IH. by right.
Qed.

(** X21. Every segment of a normalised path is non-empty and holds no
    slash. *)
Theorem pathSegments_wellformed trimmedTerm segment :
  segment ∈ pathSegments trimmedTerm →
  segment ≠ "" ∧ countChar "/" segment = 0.
Proof.
  unfold pathSegments. intros [Hin Hne]%list_elem_of_In%filter_In.
  split; [by destruct segment|].
  eapply split_no_separator. by apply list_elem_of_In.
Qed.

Lemma pathSegments_wellformed_witness :
  "ServiceHeader" ∈ pathSegments "//Pip3A4/ServiceHeader[0]//ProcessControl/" ∧
  "ServiceHeader" ≠ "" ∧ countChar "/" "ServiceHeader" = 0.
Proof.
  assert ("ServiceHeader"
          ∈ pathSegments "//Pip3A4/ServiceHeader[0]//ProcessControl/") as Hin.
  { vm_compute. right. left. }
  split; [exact Hin|].
  exact (pathSegments_wellformed _ _ Hin).
Defined.

Section Walk.
Variables (data : list Node) (segments : list string).

Lemma iteration_bound w w' :
  WalkBound data segments w → iteration data segments w = Some w' →
  WalkBound data segments w'.
Proof.
  intros [Hi Hsub] Hit. unfold iteration in Hit.
  assert (∀ t parent m,
            find (nameMatches t) (childrenOf data parent) = Some m →
            id m ∈ idSet data) as Hchild.
  { intros t parent m [Hm _]%find_some.
    apply list_elem_of_In, elem_of_childrenOf in Hm as [Hm _].
    apply elem_of_list_to_set, list_elem_of_fmap. by exists m. }
  assert (∀ k, is_Some (segments !! k) → k + 1 ≤ length segments) as Hlen.
  { intros k [s Hs]. apply lookup_lt_Some in Hs. lia. }
  destruct (compoundMatch data segments w) as [m|] eqn:Hc.
  { injection Hit as <-. unfold compoundMatch in Hc.
    destruct (segments !! i w) as [s0|]; [|done].
    destruct (segments !! (i w + 1)) as [s1|] eqn:Hs1; [|done].
    destruct (isEmpty s1); [done|]. apply Hchild in Hc.
    split; cbn [descend i newExpanded].
    - specialize (Hlen (i w + 1)). rewrite Hs1 in Hlen.
      specialize (Hlen ltac:(eauto)). lia.
    - intros x [Hx|Hx]%elem_of_union; [|by apply Hsub].
      apply elem_of_list_to_set, list_elem_of_singleton in Hx as ->. done. }
  destruct (singleMatch data segments w) as [m|] eqn:Hs.
  { injection Hit as <-. unfold singleMatch in Hs.
    destruct (segments !! i w) as [s0|] eqn:Hs0; [|done]. cbn in Hs.
    apply Hchild in Hs. split; cbn [descend i newExpanded].
    - specialize (Hlen (i w)). rewrite Hs0 in Hlen.
      specialize (Hlen ltac:(eauto)). lia.
    - intros x [Hx|Hx]%elem_of_union; [|by apply Hsub].
      apply elem_of_list_to_set, list_elem_of_singleton in Hx as ->. done. }
  destruct (choiceNode data w) as [choice|] eqn:Hch; [|done].
  destruct (matchInChoice data segments w choice) as [g|] eqn:Hg; [|done].
  injection Hit as <-. unfold matchInChoice in Hg.
  destruct (segments !! i w) as [s0|] eqn:Hs0; [|done]. cbn in Hg.
  apply Hchild in Hg. unfold choiceNode in Hch.
  apply find_some in Hch as [Hcd _].
  apply list_elem_of_In, elem_of_childrenOf in Hcd as [Hcd _].
  split; cbn [descend i newExpanded].
  - specialize (Hlen (i w)). rewrite Hs0 in Hlen.
    specialize (Hlen ltac:(eauto)). lia.
  - intros x [Hx|Hx]%elem_of_union; [|by apply Hsub].
    apply elem_of_list_to_set in Hx.
    apply elem_of_cons in Hx as [->|Hx].
    + apply elem_of_list_to_set, list_elem_of_fmap. by exists choice.
    + by apply list_elem_of_singleton in Hx as ->.
Qed.

Lemma traverse_bound fuel w :
  WalkBound data segments w →
  WalkBound data segments (traverse fuel data segments w).
Proof.
  revert w. induction fuel as [|fuel IH]; intros w Hw; [done|].
  cbn [traverse]. destruct (i w <? length segments); [|done].
  destruct (iteration data segments w) as [w'|] eqn:Hit; [|done].
  apply IH. by eapply iteration_bound.
Qed.

End Walk.

(** X22. Path resolution never consumes more segments than the query has,
    and every id it records as expanded or as the match is the id of a node
    of the tree. *)
Theorem resolvePath_stays_in_tree trimmedTerm data :
  i (resolvePath trimmedTerm data) ≤ length (pathSegments trimmedTerm)
  ∧ newExpanded (resolvePath trimmedTerm data) ⊆ idSet data
  ∧ ∀ m, matchedNodeId (resolvePath trimmedTerm data) = Some m →
         m ∈ idSet data.
Proof.
  destruct (traverse_bound data (pathSegments trimmedTerm)
              (length (pathSegments trimmedTerm)) startWalk) as [Hi Hsub].
  { split; [cbn; lia|]. intros x Hx. by apply not_elem_of_empty in Hx. }
  fold (resolvePath trimmedTerm data) in Hi, Hsub.
  split_and!; [done|done|]. intros m Hm.
  pose proof (resolvePath_inv trimmedTerm data) as Hinv.
  unfold WalkInv in Hinv. rewrite Hm in Hinv. apply Hsub. by apply Hinv.
Qed.

End PathBounds.

(** ** The dictionary as a write log *)

Section WriteLog.
Import SyntaxSpec.

Lemma defRow_rowEntry defs tr :
  defRow defs tr
  = match rowEntry tr with
    | Some e => assignDef defs e.1 e.2
    | None => defs
    end.
Proof.
  unfold defRow, rowEntry. destruct (tds tr) as [|c0 [|c1 rest]]; try done.
  by destruct (negb _ && negb _).
Qed.

Lemma fold_defRow rows defs :
  fold_left defRow rows defs
  = fold_left (λ m e, assignDef m e.1 e.2) (omap rowEntry rows) defs.
Proof.
  revert defs. induction rows as [|tr rows IH]; intros defs; [done|].
  cbn [fold_left omap list_omap]. rewrite IH, defRow_rowEntry.
  by destruct (rowEntry tr).
Qed.

Lemma fold_defTable tables defs :
  fold_left defTable tables defs
  = fold_left (λ m e, assignDef m e.1 e.2)
      (omap rowEntry (concat (List.filter isDefTable tables))) defs.
Proof.
  revert defs. induction tables as [|t tables IH]; intros defs; [done|].
  cbn [fold_left List.filter]. rewrite IH. unfold defTable.
  destruct (isDefTable t); [|done].
  cbn [concat]. by rewrite omap_app, fold_left_app, fold_defRow.
Qed.

Lemma fold_assign_last (entries : list (string * string))
    (defs : gmap string string) key :
  key ≠ "__proto__" →
  fold_left (λ m e, assignDef m e.1 e.2) entries defs !! key
  = match lastWritten key entries with
    | Some d => Some d
    | None => defs !! key
    end.
Proof.
  intros Hkey. unfold lastWritten.
  induction entries as [|e entries IH] using rev_ind; [done|].
  rewrite fold_left_app, List.filter_app. cbn [fold_left List.filter].
  unfold assignDef at 1.
  destruct (String.eqb_spec e.1 key) as [<-|Hne].
  - destruct (String.eqb_spec e.1 "__proto__") as [Heq|_]; [done|].
    rewrite lookup_insert_eq, last_snoc. done.
  - rewrite app_nil_r. destruct (String.eqb e.1 "__proto__"); [done|].
    by rewrite lookup_insert_ne.
Qed.

(** X24. A read of the dictionary under a key other than [__proto__] gives
    the description written by the last row that names the key, over all
    definition tables in document order.  Under a key that no row names,
    and under [__proto__] whatever the rows name, it gives the member of
    [Object.prototype] of that name when there is one, and [undefined]
    otherwise. *)
Theorem dictionary_last_write_wins doc key :
  readDef (extractDefinitions doc) key
  = match (if String.eqb key "__proto__" then None
           else lastWritten key (writtenEntries doc)) with
    | Some d => Some (Str d)
    | None => if isInherited key then Some (Inherited key) else None
    end.
Proof.
  unfold readDef. destruct (String.eqb_spec key "__proto__") as [->|Hkey].
  - by rewrite extractDefinitions_proto.
  - unfold extractDefinitions, writtenEntries.
    rewrite fold_defTable, fold_assign_last by done.
    destruct (lastWritten _ _); [done|]. by rewrite lookup_empty.
Qed.

(** The row that names [__proto__] stores nothing, the row that names
    [constructor] hides the inherited member, and the names left to
    [Object.prototype] are described by its members. *)
Lemma proto_row_writes_nothing :
  writtenEntries MoreExamples.protoDoc
  = [("__proto__", "ignored"); ("constructor", "made")]
  ∧ extractDefinitions MoreExamples.protoDoc = {[ "constructor" := "made" ]}
  ∧ parseRosettaNetHtml MoreExamples.protoDoc
    = Returns MoreExamples.protoTree.
Proof. split_and!; vm_compute; reflexivity. Qed.

End WriteLog.

(** ** Path syntax *)

Section PathSyntax.
Import SyntaxSpec FilesSpec.

Lemma countChar_app c s t :
  countChar c (s +:+ t) = countChar c s + countChar c t.
Proof.
  induction s as [|a s IH]; [done|]. rewrite string_app_cons.
  cbn [countChar]. rewrite IH. lia.
Qed.

Lemma afterSlash_app x rest :
  countChar "/" x = 0 → afterSlash (x +:+ String "/" rest) = Some rest.
Proof.
  induction x as [|a x IH]; [done|]. rewrite string_app_cons.
  cbn [countChar afterSlash]. destruct (Ascii.eqb a "/"); [done|]. apply IH.
Qed.

Lemma stripPipPrefix_root x rest :
  x ≠ "" → countChar "/" x = 0 →
  stripPipPrefix ("/Pip" +:+ x +:+ String "/" rest) = rest.
Proof.
  intros Hne Hx. destruct x as [|a x]; [done|].
  unfold stripPipPrefix. rewrite !string_app_cons, string_app_nil_l.
  cbn [Ascii.eqb Bool.eqb]. cbn [dropPrefix Ascii.eqb Bool.eqb].
  cbn [countChar] in Hx. destruct (Ascii.eqb a "/"); [done|].
  by rewrite afterSlash_app.
Qed.

Lemma stripIndexes_plain s : countChar "[" s = 0 → stripIndexes 0 s = s.
Proof.
  induction s as [|a s IH]; [done|]. cbn [countChar stripIndexes].
  destruct (Ascii.eqb a "["); [done|]. intros Hs. by rewrite IH.
Qed.

Lemma split_plain sep s : countChar sep s = 0 → split sep s = [s].
Proof.
  induction s as [|a s IH]; [done|]. cbn [countChar split].
  destruct (Ascii.eqb a sep); [done|]. intros Hs. by rewrite IH.
Qed.

Lemma split_app_sep sep s t :
  countChar sep s = 0 → split sep (s +:+ String sep t) = s :: split sep t.
Proof.
  induction s as [|a s IH].
  - intros _. rewrite string_app_nil_l. cbn [split].
    by rewrite Ascii.eqb_refl.
  - rewrite string_app_cons. cbn [countChar split].
    destruct (Ascii.eqb a sep); [done|]. intros Hs. by rewrite IH.
Qed.

Lemma endsWithChar_app s t c :
  t ≠ "" → endsWithChar (s +:+ t) c = endsWithChar t c.
Proof.
  intros Ht. induction s as [|a s IH]; [done|]. rewrite string_app_cons.
  cbn [endsWithChar]. rewrite IH.
  destruct (s +:+ t) eqn:Hst; [|done].
  destruct s; [|done]. by rewrite string_app_nil_l in Hst.
Qed.

Lemma endsWithChar_absent s c : countChar c s = 0 → endsWithChar s c = false.
Proof.
  induction s as [|a s IH]; [done|]. cbn [countChar endsWithChar].
  destruct (Ascii.eqb a c) eqn:Hac; [done|]. intros Hs.
  destruct s; [done|]. by apply IH.
Qed.

Lemma joined_segments segs :
  Forall simpleSegment segs → segs ≠ [] →
  split "/" (String.concat "/" segs) = segs
  ∧ countChar "[" (String.concat "/" segs) = 0
  ∧ endsWithChar (String.concat "/" segs) "/" = false
  ∧ ∃ a r, String.concat "/" segs = String a r ∧ Ascii.eqb a "/" = false.
Proof.
  induction 1 as [|s segs (Hne & Hslash & Hbr) Hall IH]; [done|]. intros _.
  assert (∃ a r, s = String a r ∧ Ascii.eqb a "/" = false) as (a & r & -> & Ha).
  { destruct s as [|a r]; [done|]. exists a, r. split; [done|].
    cbn [countChar] in Hslash. by destruct (Ascii.eqb a "/"). }
  destruct segs as [|s' segs'].
  - cbn [String.concat]. split_and!.
    + by apply split_plain.
    + done.
    + by apply endsWithChar_absent.
    + by exists a, r.
  - destruct IH as (Hsplit & Hbr' & Hend & a' & r' & Hhead & Ha'); [done|].
    change (String.concat "/" (String a r :: s' :: segs'))
      with (String a r +:+ String "/" (String.concat "/" (s' :: segs'))).
    split_and!.
    + by rewrite split_app_sep, Hsplit.
    + rewrite countChar_app, Hbr. cbn [countChar Ascii.eqb Bool.eqb].
      by rewrite Hbr'.
    + change (String a r +:+ String "/" (String.concat "/" (s' :: segs')))
        with (String a r +:+ ("/" +:+ String.concat "/" (s' :: segs'))).
      rewrite <- string_app_assoc, endsWithChar_app; [done|].
      by rewrite Hhead.
    + exists a, (r +:+ String "/" (String.concat "/" (s' :: segs'))).
      by rewrite string_app_cons.
Qed.

Lemma filter_nonempty segs :
  Forall simpleSegment segs →
  List.filter (λ s, negb (isEmpty s)) segs = segs.
Proof.
  induction 1 as [|s segs (Hne & _) _ IH]; [done|]. cbn [List.filter].
  rewrite IH. by destruct s.
Qed.

(** X25. A path written as [/Pip<root>/] followed by segments joined with
    slashes is normalised to exactly those segments, when the root token is
    non-empty and slash-free and every segment is non-empty and free of
    slashes and opening brackets. *)
Theorem pathSegments_of_joined x segs :
  x ≠ "" → countChar "/" x = 0 →
  Forall simpleSegment segs →
  pathSegments ("/Pip" +:+ x +:+ String "/" (String.concat "/" segs)) = segs.
Proof.
  intros Hx Hslash Hsegs. unfold pathSegments.
  rewrite stripPipPrefix_root by done.
  destruct (decide (segs = [])) as [->|Hne]; [done|].
  destruct (joined_segments segs Hsegs Hne)
    as (Hsplit & Hbr & Hend & a & r & Hhead & Ha).
  rewrite stripIndexes_plain by done. rewrite Hhead, Ha, <- Hhead, Hend, Hsplit.
  by apply filter_nonempty.
Qed.

Lemma pathSegments_of_joined_witness :
  "3A4" ≠ "" ∧ countChar "/" "3A4" = 0 ∧
  Forall simpleSegment ["ServiceHeader"; "ProcessControl"] ∧
  pathSegments
    ("/Pip" +:+ "3A4" +:+ String "/"
       (String.concat "/" ["ServiceHeader"; "ProcessControl"]))
  = ["ServiceHeader"; "ProcessControl"].
Proof.
  assert (Forall simpleSegment ["ServiceHeader"; "ProcessControl"]) as Hsegs.
  { repeat constructor; discriminate. }
  split; [discriminate|]. split; [reflexivity|]. split; [exact Hsegs|].
  exact (pathSegments_of_joined "3A4" ["ServiceHeader"; "ProcessControl"]
           ltac:(discriminate) eq_refl Hsegs).
Defined.

Lemma indexLen_digits d t :
  allChars isDigit d = true →
  indexLen (d +:+ String "]" t) = Some (S (String.length d)).
Proof.
  induction d as [|a d IH]; [done|]. rewrite string_app_cons.
  cbn [allChars indexLen String.length].
  intros [Ha Hd]%andb_true_iff. rewrite Ha, IH by done.
  destruct (Ascii.eqb_spec a "]") as [->|]; [discriminate Ha|done].
Qed.

Lemma stripIndexes_skip d t :
  stripIndexes (S (String.length d)) (d +:+ String "]" t) = stripIndexes 0 t.
Proof. induction d as [|a d IH]; [done|]. rewrite string_app_cons. apply IH. Qed.

(** X26. An array-index annotation, an opening bracket followed by decimal
    digits (possibly none) and a closing bracket, is deleted from the path
    wherever it follows bracket-free text. *)
Theorem stripIndexes_deletes_index s d t :
  countChar "[" s = 0 →
  allChars isDigit d = true →
  stripIndexes 0 (s +:+ String "[" (d +:+ String "]" t))
  = s +:+ stripIndexes 0 t.
Proof.
  intros Hs Hd. induction s as [|a s IH].
  - rewrite !string_app_nil_l. cbn [stripIndexes Ascii.eqb Bool.eqb].
    by rewrite indexLen_digits, stripIndexes_skip.
  - rewrite !string_app_cons. cbn [countChar] in Hs. cbn [stripIndexes].
    destruct (Ascii.eqb a "["); [done|]. by rewrite IH.
Qed.

Lemma stripIndexes_deletes_index_witness :
  countChar "[" "Line" = 0 ∧ allChars isDigit "12" = true ∧
  stripIndexes 0 ("Line" +:+ String "[" ("12" +:+ String "]" "/Item[]"))
  = "Line" +:+ stripIndexes 0 "/Item[]".
Proof.
  split; [reflexivity|]. split; [reflexivity|].
  exact (stripIndexes_deletes_index "Line" "12" "/Item[]" eq_refl eq_refl).
Defined.

End PathSyntax.
